(** * Playback subsystem of the utility Discord bot: Track, shuffle, Session

    Shallow embedding of
    - [Track] (createAudioResource, getVideoDetails, getAudioResource),
    - [shuffleArray] of [src/utils.ts],
    - the pause command of [src/commands/player/pause.ts] with the
      [Session] state machine it drives,
    and the properties of the specification that concern them. *)

From Stdlib Require Import QArith Qround.
From stdpp Require Import gmap strings list fin_maps.

Local Open Scope string_scope.
Local Open Scope list_scope.
Local Open Scope nat_scope.

(** ** JavaScript numbers

    A [number] is an IEEE double.  Every finite double is a rational, so a
    finite value is carried as its exact value in [Q]; [NaN] and the two
    infinities are separate constructors.  Only the truthiness test and
    [Math.ceil] are applied to seek and speed values, and both are exact. *)

Inductive number : Type :=
| Num (q : Q)
| NaN
| Infinity (negative : bool).

(** [if (x)] on an optional number: [undefined], [0], [-0] and [NaN] are
    falsy, every other number is truthy. *)
Definition truthy_number (n : number) : bool :=
  match n with
  | Num q => negb (Qnum q =? 0)%Z
  | NaN => false
  | Infinity _ => true
  end.

Definition truthy (o : option number) : bool :=
  match o with
  | None => false
  | Some n => truthy_number n
  end.

(** [Math.ceil]. *)
Definition Math_ceil (n : number) : number :=
  match n with
  | Num q => Num (inject_Z (Qceiling q))
  | NaN => NaN
  | Infinity s => Infinity s
  end.


(** ** Data model of [Track] *)

Inductive TrackVariant : Type :=
| YOUTUBE_VOD
| YOUTUBE_LIVESTREAM
| TWITCH_VOD
| TWITCH_LIVESTREAM.

Record VideoDetails : Type := {
  title : string;
  duration : option number
}.

Record AudioResourceOptions : Type := {
  seek : option number;   (* in seconds *)
  speed : option number   (* multiplier *)
}.

(** Objects live in a store and are designated by references.  The only
    objects whose identity matters here are the [VideoDetails] objects:
    [this.details] is a reference, and [{ ...this.details }] allocates a new
    object. *)
Abbreviation ref := positive.

Record TrackConstructorOptions : Type := {
  options_link : string;
  options_variant : TrackVariant;
  options_details : option ref;
  options_sourceLink : option string
}.

Record Track : Type := {
  link : string;
  variant : TrackVariant;
  sourceLink : option string;
  details : option ref
}.

Definition new_Track (options : TrackConstructorOptions) : Track :=
  {| link := options_link options;
     variant := options_variant options;
     details := options_details options;
     sourceLink := options_sourceLink options |}.

(** Thrown values.  [name] is the name of the error class. *)
Record JsError : Type := {
  name : string;
  message : string;
  code : option string
}.

(** [new Error(msg)] *)
Definition new_Error (msg : string) : JsError :=
  {| name := "Error"; message := msg; code := None |}.

(** The error class the specification calls [ResolutionError]. *)
Definition is_ResolutionError (e : JsError) : Prop := name e = "ResolutionError".

(** Streams, ffmpeg pipelines and audio resources. *)
Inductive StreamType : Type := Arbitrary | Raw | OggOpus | WebmOpus | Opus.

Inductive Readable : Type :=
| PlayDlStream (id : nat)     (* [source.stream] of [play.stream] *)
| ExecStdout (id : nat).      (* [process.stdout] of youtube-dl-exec *)

Inductive AudioFilter : Type :=
| atempo (s : number).        (* [`atempo=${speed}`] *)

Record FfmpegCommand : Type := {
  source : Readable;
  toFormat : option string;
  audioFilters : list AudioFilter;
  startTime : option number
}.

Definition ffmpeg (s : Readable) : FfmpegCommand :=
  {| source := s; toFormat := None; audioFilters := []; startTime := None |}.

Definition set_toFormat (f : string) (c : FfmpegCommand) : FfmpegCommand :=
  {| source := source c; toFormat := Some f;
     audioFilters := audioFilters c; startTime := startTime c |}.

Definition add_audioFilters (f : AudioFilter) (c : FfmpegCommand) : FfmpegCommand :=
  {| source := source c; toFormat := toFormat c;
     audioFilters := audioFilters c ++ [f]; startTime := startTime c |}.

Definition setStartTime (t : number) (c : FfmpegCommand) : FfmpegCommand :=
  {| source := source c; toFormat := toFormat c;
     audioFilters := audioFilters c; startTime := Some t |}.

Inductive ResourceInput : Type :=
| FromStream (s : Readable) (inputType : StreamType)
| FromFfmpeg (c : FfmpegCommand).

Record AudioResource : Type := {
  input : ResourceInput;
  metadata : Track
}.




(** ** The outside world

    Every call to an upstream service is recorded, in order, in [calls];
    every call of [error] from [src/logging] is recorded in [log]. *)

Inductive Call : Type :=
| CallPlayStream (l : string) (seek : option number)  (* [play.stream(link, {seek})] *)
| CallYtdlExec (l : string)                           (* [ytdlExec(link, ...)] *)
| CallYoutubeDetails (l : string).                    (* [getYoutubeDetailsFromUrl(link)] *)

Inductive LogArg : Type :=
| LogText (s : string)
| LogError (e : JsError).

Record PlaySource : Type := {
  stream : nat;
  type : StreamType
}.

(** What happens to the child process started by [ytdlExec]. *)
Inductive ExecOutcome : Type :=
| NoStdout                 (* [process.stdout] is null *)
| Spawned (stdout : nat)   (* the ['spawn'] event fires *)
| Crashed (err : JsError). (* the process promise rejects before that *)

(** The upstream services.  They may answer differently at each call, so
    every answer also depends on the number of calls made so far. *)
Record Services : Type := {
  play_stream_answer : nat -> string -> option number -> JsError + PlaySource;
  ytdlExec_answer : nat -> string -> ExecOutcome;
  youtube_details_answer : nat -> string -> JsError + VideoDetails
}.

Record State : Type := {
  this : Track;
  heap : gmap positive VideoDetails;
  calls : list Call;
  log : list (list LogArg)
}.

#[global] Instance VideoDetails_inhabited : Inhabited VideoDetails :=
  populate {| title := ""; duration := None |}.

(** ** Promises, run to completion

    An [async] function is a state transformer that settles either way. *)

Inductive Settled (A : Type) : Type :=
| Resolved (a : A)
| Rejected (e : JsError).
Arguments Resolved {A} a.
Arguments Rejected {A} e.

Definition Async (A : Type) : Type := State -> Settled A * State.

#[global] Instance Async_ret : MRet Async :=
  fun A (a : A) σ => (Resolved a, σ).

Definition reject {A} (e : JsError) : Async A := fun σ => (Rejected e, σ).

(** [await m] followed by the continuation [k]. *)
#[global] Instance Async_bind : MBind Async :=
  fun A B (k : A -> Async B) (m : Async A) σ =>
    match m σ with
    | (Resolved a, σ') => k a σ'
    | (Rejected e, σ') => (Rejected e, σ')
    end.

(** [try { m } catch (err) { h err }] *)
Definition try_catch {A} (m : Async A) (h : JsError -> Async A) : Async A :=
  fun σ =>
    match m σ with
    | (Resolved a, σ') => (Resolved a, σ')
    | (Rejected e, σ') => h e σ'
    end.

(** *** Primitive effects *)

Definition get_this : Async Track := fun σ => (Resolved (this σ), σ).

(** [this.details = d] *)
Definition set_details (d : ref) : Async unit := fun σ =>
  (Resolved tt,
   {| this := {| link := link (this σ); variant := variant (this σ);
                 sourceLink := sourceLink (this σ); details := Some d |};
      heap := heap σ; calls := calls σ; log := log σ |}).

(** A new object holding [v]. *)
Definition alloc (v : VideoDetails) : Async ref := fun σ =>
  let r := fresh (dom (heap σ)) in
  (Resolved r,
   {| this := this σ; heap := <[r := v]> (heap σ);
      calls := calls σ; log := log σ |}).

(** [{ ...o }]: a new object with the own properties of the object [o]. *)
Definition spread (o : ref) : Async ref := fun σ => alloc (heap σ !!! o) σ.

(** [error(...args)] of [src/logging]: the arguments are appended to the
    log as one line. *)
Definition error (args : list LogArg) : Async unit := fun σ =>
  (Resolved tt,
   {| this := this σ; heap := heap σ; calls := calls σ;
      log := log σ ++ [args] |}).

Definition record_call (c : Call) (σ : State) : State :=
  {| this := this σ; heap := heap σ; calls := calls σ ++ [c]; log := log σ |}.

(** An assignment to a property of the object [o] by whoever holds [o]. *)
Definition mutate (o : ref) (f : VideoDetails -> VideoDetails) (σ : State) : State :=
  {| this := this σ; heap := <[o := f (heap σ !!! o)]> (heap σ);
     calls := calls σ; log := log σ |}.

(** ** The methods of [Track] *)

Section TrackMethods.

Variable env : Services.

(** [play.stream(link)] and [play.stream(link, { seek })] *)
Definition play_stream (l : string) (s : option number) : Async PlaySource := fun σ =>
  match play_stream_answer env (length (calls σ)) l s with
  | inl e => (Rejected e, record_call (CallPlayStream l s) σ)
  | inr src => (Resolved src, record_call (CallPlayStream l s) σ)
  end.

(** [ytdlExec(link, {...}, {...})]: starts the child process. *)
Definition ytdlExec (l : string) : Async ExecOutcome := fun σ =>
  (Resolved (ytdlExec_answer env (length (calls σ)) l), record_call (CallYtdlExec l) σ).

(** [getDetailsFromUrl] of [./youtube]; the object it resolves to is new. *)
Definition getYoutubeDetailsFromUrl (l : string) : Async ref := fun σ =>
  match youtube_details_answer env (length (calls σ)) l with
  | inl e => (Rejected e, record_call (CallYoutubeDetails l) σ)
  | inr v => alloc v (record_call (CallYoutubeDetails l) σ)
  end.

(** [createAudioResource] of [@discordjs/voice]. *)
Definition voice_createAudioResource (i : ResourceInput) (m : Track) : AudioResource :=
  {| input := i; metadata := m |}.

Definition tryPlayDl (options : AudioResourceOptions) : Async AudioResource :=
  this ← get_this;
  source ← (if truthy (seek options)
            then play_stream (link this) (seek options)
            else play_stream (link this) None);
  mret (voice_createAudioResource
          (FromStream (PlayDlStream (stream source)) (type source)) this).

(** The [onError] handler inside [tryYtdlExec]: the promise is rejected with
    [err], which is also logged unless it is a premature close.  In the
    source [reject(err)] comes first and the handler goes on to log; here
    [reject] ends the computation, so the logging is written before it.
    An error of the child after the ['spawn'] event finds the promise
    already resolved and does not change what the call returned. *)
Definition onError {A} (err : JsError) : Async A :=
  (if decide (code err = Some "ERR_STREAM_PREMATURE_CLOSE")
   then mret tt
   else error [LogError err]);;
  reject err.

Definition when_truthy {A} (o : option number) (f : number -> A -> A) (a : A) : A :=
  match o with
  | Some n => if truthy_number n then f n a else a
  | None => a
  end.

Definition tryYtdlExec (seek speed : option number) : Async AudioResource :=
  this ← get_this;
  process ← ytdlExec (link this);
  match process with
  | NoStdout => reject (new_Error "No stdout")
  | Crashed err => onError err
  | Spawned stdout =>
      let manipulatedStream := set_toFormat "mp3" (ffmpeg (ExecStdout stdout)) in
      let manipulatedStream :=
        when_truthy speed (fun s => add_audioFilters (atempo s)) manipulatedStream in
      let manipulatedStream :=
        when_truthy seek (fun s => setStartTime (Math_ceil s)) manipulatedStream in
      mret (voice_createAudioResource (FromFfmpeg manipulatedStream) this)
  end.

(** The [switch] returns from inside its first case when play-dl succeeds;
    otherwise control falls through to the [default] case. *)
Definition createAudioResource (options : AudioResourceOptions) : Async AudioResource :=
  this ← get_this;
  returned ←
    match variant this with
    | YOUTUBE_LIVESTREAM | YOUTUBE_VOD =>
        if negb (truthy (speed options))
        then try_catch
               (audioResource ← tryPlayDl options; mret (Some audioResource))
               (fun err =>
                  error [LogText "Error playing resource from play-dl"; LogError err];;
                  mret None)
        else mret None
    | _ => mret None
    end;
  match returned with
  | Some audioResource => mret audioResource
  | None => tryYtdlExec (seek options) (speed options)
  end.

(** [{ ...this.details }].  Spreading [undefined] gives the empty object;
    [getVideoDetails] never does so, since [this.details] is assigned on
    every path that reaches its last line. *)
Definition spread_details : Async ref :=
  this ← get_this;
  match details this with
  | Some d => spread d
  | None => alloc inhabitant
  end.

Definition getVideoDetails : Async ref :=
  this ← get_this;
  if bool_decide (is_Some (details this)) then spread_details
  else
    match variant this with
    | YOUTUBE_LIVESTREAM | YOUTUBE_VOD =>
        d ← getYoutubeDetailsFromUrl (link this);
        set_details d
    | TWITCH_VOD =>
        (* TODO: Add support for fetching Twitch titles *)
        d ← alloc {| title := "TODO"; duration := None |};
        set_details d
    | _ =>
        d ← alloc {| title := "TODO"; duration := None |};
        set_details d
    end;;
    spread_details.

Definition getAudioResource (options : AudioResourceOptions) : Async AudioResource :=
  audioResource ← createAudioResource options;
  mret audioResource.

End TrackMethods.

(** ** Concrete tracks and services used in the examples *)

Definition no_details_state (t : Track) : State :=
  {| this := t; heap := ∅; calls := []; log := [] |}.

Definition youtube_track : Track :=
  new_Track {| options_link := "https://www.youtube.com/watch?v=abc";
               options_variant := YOUTUBE_VOD;
               options_details := None;
               options_sourceLink := None |}.

Definition twitch_track : Track :=
  new_Track {| options_link := "https://www.twitch.tv/videos/1";
               options_variant := TWITCH_VOD;
               options_details := None;
               options_sourceLink := None |}.

(** Every upstream service is down. *)
Definition services_down : Services :=
  {| play_stream_answer := fun _ _ _ => inl (new_Error "play-dl: 429");
     ytdlExec_answer := fun _ _ => NoStdout;
     youtube_details_answer := fun _ _ => inl (new_Error "quota exceeded") |}.

(** play-dl is down, everything else works. *)
Definition services_play_dl_down : Services :=
  {| play_stream_answer := fun _ _ _ => inl (new_Error "play-dl: 429");
     ytdlExec_answer := fun n _ => Spawned n;
     youtube_details_answer := fun _ _ =>
       inr {| title := "a video"; duration := Some (Num 213) |} |}.

(** Everything works. *)
Definition services_up : Services :=
  {| play_stream_answer := fun n _ _ => inr {| stream := n; type := WebmOpus |};
     ytdlExec_answer := fun n _ => Spawned n;
     youtube_details_answer := fun _ _ =>
       inr {| title := "a video"; duration := Some (Num 213) |} |}.

Definition no_options : AudioResourceOptions := {| seek := None; speed := None |}.




(** Number of metadata fetches recorded in a trace. *)
Definition is_fetch (c : Call) : bool :=
  match c with
  | CallYoutubeDetails _ => true
  | _ => false
  end.

Definition fetches (σ : State) : nat := length (filter (fun c => is_fetch c = true) (calls σ)).


Definition is_youtube (v : TrackVariant) : bool :=
  match v with
  | YOUTUBE_VOD | YOUTUBE_LIVESTREAM => true
  | _ => false
  end.

(** The error with which a failed youtube-dl-exec attempt rejects. *)
Definition exec_error (o : ExecOutcome) : option JsError :=
  match o with
  | NoStdout => Some (new_Error "No stdout")
  | Crashed err => Some err
  | Spawned _ => None
  end.

(** A state is well formed when [this.details] designates a live object. *)
Definition details_live (σ : State) : Prop :=
  forall d, details (this σ) = Some d -> d ∈ dom (heap σ).

(** ** [shuffleArray] of [src/utils.ts] *)

Section Shuffle.

Context {T : Type}.



End Shuffle.






(** ** The pause command and the [Session] it drives *)

(** Modelled from the spec: the states of a [Session], section 3. *)
Inductive Status : Type := idle | loading | playing | paused | stopped.

(** Modelled from the spec: the [Session] class ([./sessions]) is not among
    the sources; section 3 gives its fields. *)
Record Session : Type := {
  guildKey : string;
  queue : list Track;
  cursor : option nat;
  status : Status;
  outputHandle : option nat
}.

(** [this.status = st] *)
Definition set_status (st : Status) (s : Session) : Session :=
  {| guildKey := guildKey s; queue := queue s; cursor := cursor s;
     status := st; outputHandle := outputHandle s |}.

(** Modelled from the spec: [Session.pause] is not among the sources.
    Section 4.3: valid only from [playing]; transitions to [paused]; returns
    whether the transition occurred (false if not currently playing). *)
Definition pause (s : Session) : bool * Session :=
  match status s with
  | playing => (true, set_status paused s)
  | _ => (false, s)
  end.

(** Modelled from the spec: [Session.resume] is not among the sources.
    Section 4.3: valid only from [paused]; transitions to [playing]; returns
    whether it occurred. *)
Definition resume (s : Session) : bool * Session :=
  match status s with
  | paused => (true, set_status playing s)
  | _ => (false, s)
  end.

(** [runCommand] of [src/commands/player/pause.ts]: the content of the reply
    and the registry of sessions afterwards. *)
Definition pause_runCommand (sessions : gmap string Session) (guild : string)
  : string * gmap string Session :=
  match sessions !! guild with
  | None => ("Session does not exist.", sessions)
  | Some session =>
      let '(success, session') := pause session in
      (if success then "Paused." else "Could not pause.",
       <[guild := session']> sessions)
  end.

(** ** Vocabulary of the properties *)

(** The seek option as [tryPlayDl] hands it to [play.stream]. *)
Definition play_dl_seek (options : AudioResourceOptions) : option number :=
  if truthy (seek options) then seek options else None.

(** Whether [createAudioResource] attempts play-dl at all. *)
Definition attempts_play_dl (t : Track) (options : AudioResourceOptions) : bool :=
  is_youtube (variant t) && negb (truthy (speed options)).

(** Every provider that [createAudioResource] attempts fails, youtube-dl-exec
    (the last one) with [e]. *)
Definition all_providers_fail (env : Services) (options : AudioResourceOptions)
    (σ : State) (e : JsError) : Prop :=
  let n := length (calls σ) in
  let l := link (this σ) in
  if attempts_play_dl (this σ) options
  then (exists e1, play_stream_answer env n l (play_dl_seek options) = inl e1) /\
       exec_error (ytdlExec_answer env (S n) l) = Some e
  else exec_error (ytdlExec_answer env n l) = Some e.

(** The calls made, and the lines logged, between two states. *)
Definition new_calls (σ σ' : State) : list Call := drop (length (calls σ)) (calls σ').

(** [0] and [-0]. *)
Definition is_zero (n : number) : Prop :=
  match n with
  | Num q => (q == 0)%Q
  | _ => False
  end.

(** The ffmpeg pipeline that [tryYtdlExec] builds on the child's output. *)
Definition exec_pipeline (sk sp : option number) (stdout : nat) : FfmpegCommand :=
  when_truthy sk (fun s => setStartTime (Math_ceil s))
    (when_truthy sp (fun s => add_audioFilters (atempo s))
       (set_toFormat "mp3" (ffmpeg (ExecStdout stdout)))).

(** Whether the first [getVideoDetails] on a track has to ask YouTube. *)
Definition needs_fetch (t : Track) : bool :=
  match details t with
  | Some _ => false
  | None => is_youtube (variant t)
  end.

Definition populated_state : State :=
  {| this := {| link := link youtube_track; variant := YOUTUBE_VOD;
                sourceLink := None; details := Some 1%positive |};
     heap := {[ 1%positive := {| title := "a video"; duration := None |} ]};
     calls := []; log := [] |}.


Definition idle_session : Session :=
  {| guildKey := "guild"; queue := []; cursor := None;
     status := idle; outputHandle := None |}.


(** ** JavaScript strings in [src/utils.ts]

    A string is its sequence of UTF-16 code units. *)

Abbreviation code_unit := N.

(** The code units of an ASCII literal. *)
Definition js (s : string) : list N :=
  Ascii.N_of_ascii <$> String.list_ascii_of_string s.

(** [ToIntegerOrInfinity] followed by the clamping to [0 .. len] that
    [substring] applies to an index. *)
Definition clamp_index (n : number) (len : nat) : nat :=
  match n with
  | Num q => Nat.min (Z.to_nat (Qfloor q)) len
  | NaN => 0
  | Infinity negative => if negative then 0 else len
  end.

(** [str.substring(0, end)] *)
Definition substring_from_0 {C} (str : list C) (end_ : number) : list C :=
  take (clamp_index end_ (length str)) str.

(** [len <= n] for a length [len] and a number [n]. *)
Definition length_le (len : nat) (n : number) : bool :=
  match n with
  | Num q => Qle_bool (inject_Z (Z.of_nat len)) q
  | NaN => false
  | Infinity negative => negb negative
  end.

(** [getIntersection(a, b, comparator)] *)
Definition getIntersection {T} (a b : list T) (comparator : T -> T -> bool) : list T :=
  List.filter (fun elA => existsb (fun elB => comparator elA elB) b) a.

(** [shorten(msg, length)] *)
Definition shorten (msg : list N) (length_ : number) : list N :=
  if length_le (length msg) length_ then msg
  else substring_from_0 msg length_ ++ js "...".

(** [str.slice(start, end)] for integers [start] and [end]: a negative index
    counts from the end of the string. *)
Definition slice_index (i : Z) (len : nat) : nat :=
  if (i <? 0)%Z then Z.to_nat (Z.max (Z.of_nat len + i) 0)
  else Nat.min (Z.to_nat i) len.

Definition slice {C} (str : list C) (start end_ : Z) : list C :=
  let from := slice_index start (length str) in
  let to := slice_index end_ (length str) in
  take (to - from) (drop from str).

(** The loop of [chunkString], entered with the counter at [i] and the
    chunks pushed so far; [fuel] bounds the number of iterations, and the
    result is [None] when the loop is still running after that many. *)
Fixpoint chunkString_loop {C} (fuel : nat) (str : list C) (size : Z) (i : Z)
    (chunks : list (list C)) : option (list (list C)) :=
  if (i * size <? Z.of_nat (length str))%Z then
    match fuel with
    | 0 => None
    | S fuel' =>
        let start := (i * size)%Z in
        chunkString_loop fuel' str size (i + 1)
          (chunks ++ [slice str start (start + size)])
    end
  else Some chunks.

Definition chunkString {C} (fuel : nat) (str : list C) (size : Z) : option (list (list C)) :=
  chunkString_loop fuel str size 0 [].

(** [getUniqueId]: the counter [id] of the closure is a double, on which
    [id += 1] is exact below [2^53] and leaves [2^53] where it is (the sum
    is rounded to even). *)
Definition double_add_1 (id : Z) : Z :=
  if (id <? 2 ^ 53)%Z then (id + 1)%Z else id.

(** One call: the value returned and the counter afterwards. *)
Definition getUniqueId (id : Z) : Z * Z :=
  let id := double_add_1 id in
  (id, id).

(** The values returned by [n] calls in a row, first call first. *)
Fixpoint getUniqueId_calls (n : nat) (id : Z) : list Z :=
  match n with
  | 0 => []
  | S n' => let '(r, id') := getUniqueId id in r :: getUniqueId_calls n' id'
  end.





(** The [k]-th window of [size] code units of a string, and all of them. *)
Definition window {C} (size : nat) (str : list C) (k : nat) : list C :=
  take size (drop (k * size) str).

Definition windows {C} (size : nat) (str : list C) : list (list C) :=
  window size str <$> seq 0 ((length str + size - 1) / size).

(** ** Regular expressions

    The patterns of [src/utils.ts] use no back-reference, so [regex.test]
    is membership in the language of the pattern.  A pattern is written
    here for the whole input: [^] and [$] are implicit, and a pattern that
    the source leaves open at the start is preceded by [anything]. *)

Inductive regex : Type :=
| Never                         (* no string *)
| Eps                           (* the empty string *)
| Class (p : N -> bool)         (* one code unit of a class *)
| Cat (r1 r2 : regex)
| Alt (r1 r2 : regex)
| Star (r : regex)
| Both (r1 r2 : regex).         (* both patterns, on the same input *)

Fixpoint nullable (r : regex) : bool :=
  match r with
  | Never => false
  | Eps => true
  | Class _ => false
  | Cat r1 r2 => nullable r1 && nullable r2
  | Alt r1 r2 => nullable r1 || nullable r2
  | Star _ => true
  | Both r1 r2 => nullable r1 && nullable r2
  end.

(** The pattern for what may follow the code unit [c]. *)
Fixpoint deriv (c : N) (r : regex) : regex :=
  match r with
  | Never => Never
  | Eps => Never
  | Class p => if p c then Eps else Never
  | Cat r1 r2 =>
      Alt (Cat (deriv c r1) r2) (if nullable r1 then deriv c r2 else Never)
  | Alt r1 r2 => Alt (deriv c r1) (deriv c r2)
  | Star r1 => Cat (deriv c r1) (Star r1)
  | Both r1 r2 => Both (deriv c r1) (deriv c r2)
  end.

(** [/^r$/.test(s)] *)
Definition regex_test (r : regex) (s : list N) : bool :=
  nullable (foldl (fun r c => deriv c r) r s).

(** The language of a pattern. *)
Inductive Matches : regex -> list N -> Prop :=
| Matches_eps : Matches Eps []
| Matches_class p c : p c = true -> Matches (Class p) [c]
| Matches_cat r1 r2 s1 s2 : Matches r1 s1 -> Matches r2 s2 -> Matches (Cat r1 r2) (s1 ++ s2)
| Matches_alt_l r1 r2 s : Matches r1 s -> Matches (Alt r1 r2) s
| Matches_alt_r r1 r2 s : Matches r2 s -> Matches (Alt r1 r2) s
| Matches_star_nil r : Matches (Star r) []
| Matches_star_cons r s1 s2 :
    Matches r s1 -> Matches (Star r) s2 -> Matches (Star r) (s1 ++ s2)
| Matches_both r1 r2 s : Matches r1 s -> Matches r2 s -> Matches (Both r1 r2) s.

(** Classes and derived forms. *)
Definition is_digit (c : N) : bool := (48 <=? c)%N && (c <=? 57)%N.       (* [\d] *)
Definition is_char (a : N) (c : N) : bool := (c =? a)%N.

(** [\s]: the white space and line terminators of ECMAScript. *)
Definition is_space (c : N) : bool :=
  ((9 <=? c) && (c <=? 13) || (c =? 32) || (c =? 160) || (c =? 5760)
   || (8192 <=? c) && (c <=? 8202) || (c =? 8232) || (c =? 8233)
   || (c =? 8239) || (c =? 8287) || (c =? 12288) || (c =? 65279))%N.

Definition anything : regex := Star (Class (fun _ => true)).
Definition Opt (r : regex) : regex := Alt Eps r.                         (* [r?] *)
Definition Plus (r : regex) : regex := Cat r (Star r).                   (* [r+] *)

(** [r{n}] *)
Fixpoint Rep (n : nat) (r : regex) : regex :=
  match n with
  | 0 => Eps
  | S n' => Cat r (Rep n' r)
  end.

(** [r{0,n}] *)
Fixpoint UpTo (n : nat) (r : regex) : regex :=
  match n with
  | 0 => Eps
  | S n' => Opt (Cat r (UpTo n' r))
  end.

(** A literal. *)
Fixpoint Lit (w : list N) : regex :=
  match w with
  | [] => Eps
  | c :: w' => Cat (Class (is_char c)) (Lit w')
  end.

(** ** Numbers and digits *)

(** The value of a string of decimal digits, as [Number] and [parseInt]
    give it; it is exact, as a double is below [2^53]. *)
Definition digit_value (c : N) : Z := Z.of_N c - 48.

Definition Number_digits (s : list N) : Z :=
  foldl (fun acc c => 10 * acc + digit_value c)%Z 0%Z s.

(** [String(n)] for an integer [n], in plain decimal (as it is below
    [10^21]). *)
Fixpoint uint_digits (d : Decimal.uint) : list N :=
  match d with
  | Decimal.Nil => []
  | Decimal.D0 d => 48%N :: uint_digits d
  | Decimal.D1 d => 49%N :: uint_digits d
  | Decimal.D2 d => 50%N :: uint_digits d
  | Decimal.D3 d => 51%N :: uint_digits d
  | Decimal.D4 d => 52%N :: uint_digits d
  | Decimal.D5 d => 53%N :: uint_digits d
  | Decimal.D6 d => 54%N :: uint_digits d
  | Decimal.D7 d => 55%N :: uint_digits d
  | Decimal.D8 d => 56%N :: uint_digits d
  | Decimal.D9 d => 57%N :: uint_digits d
  end.

Definition String_of_Z (n : Z) : list N :=
  match Z.to_int n with
  | Decimal.Pos d => uint_digits d
  | Decimal.Neg d => js "-" ++ uint_digits d
  end.

(** [s.padStart(2, '0')] *)
Definition padStart_2_0 (s : list N) : list N :=
  replicate (2 - length s) 48%N ++ s.

(** [s.split(':')], and in general at every code unit equal to [sep]. *)
Fixpoint split_at (sep : N) (s : list N) : list (list N) :=
  match s with
  | [] => [[]]
  | c :: s' =>
      if (c =? sep)%N then [] :: split_at sep s'
      else match split_at sep s' with
           | part :: parts => (c :: part) :: parts
           | [] => [[c]]
           end
  end.

(** ** Clock strings *)

(** [array.reduce((acc, x, i) => f(acc, x, i), init)] *)
Definition reduce_indexed {A B} (f : B -> A -> Z -> B) (init : B) (l : list A) : B :=
  foldl (fun acc '(i, x) => f acc x (Z.of_nat i)) init (zip (seq 0 (length l)) l).

Definition is_empty_string (s : list N) : bool :=
  match s with
  | [] => true
  | _ => false
  end.

(** The callback given to [reduce] in [getClockString]; [n] is
    [portions.length]. *)
Definition clock_reducer (minPortionLength : Z) (n : nat)
    (acc : list N) (portion : Z) (i : Z) : list N :=
  let isRequired := (Z.of_nat n - minPortionLength <=? i)%Z in
  if is_empty_string acc && (portion =? 0)%Z && negb isRequired then []
  else
    let formatted := padStart_2_0 (String_of_Z portion) in
    if negb (is_empty_string acc) then acc ++ js ":" ++ formatted
    else formatted.

(** [getClockString(durationMs, minPortionLength)] for a whole number of
    milliseconds; the default of [minPortionLength] is [0]. *)
Definition getClockString (durationMs minPortionLength : Z) : list N :=
  let secondsInMs := 1000%Z in
  let minutesInMs := (60 * secondsInMs)%Z in
  let hoursInMs := (60 * minutesInMs)%Z in
  let numHours := (durationMs / hoursInMs)%Z in
  let durationMs := (durationMs - numHours * hoursInMs)%Z in
  let numMins := (durationMs / minutesInMs)%Z in
  let durationMs := (durationMs - numMins * minutesInMs)%Z in
  let numSecs := (durationMs / secondsInMs)%Z in
  let portions := [numHours; numMins; numSecs] in
  let result :=
    reduce_indexed (clock_reducer minPortionLength (length portions)) [] portions in
  if is_empty_string result then js "0" else result.

(** [\d{1,2}] *)
Definition digits_1_2 : regex := Cat (Class is_digit) (Opt (Class is_digit)).

(** [/^(\d{1,2}:){0,2}(\d{1,2})$/] *)
Definition clockStringRegex : regex :=
  Cat (UpTo 2 (Cat digits_1_2 (Lit (js ":")))) digits_1_2.

(** [getSecondsFromClockString(clockString)]; [inl] is the message of the
    error thrown. *)
Definition getSecondsFromClockString (clockString : list N) : list N + Z :=
  if negb (regex_test clockStringRegex clockString)
  then inl (js "Clock string is not formatted properly")
  else
    let parts := split_at 58 clockString in
    inr (reduce_indexed
           (fun acc part i => (acc + 60 ^ i * Number_digits part)%Z)
           0%Z (reverse parts)).

(** ** URL timestamps *)



(** The longest run of digits at the start of a string, and what follows. *)
Fixpoint span_digits (s : list N) : list N * list N :=
  match s with
  | c :: s' =>
      if is_digit c then let '(ds, rest) := span_digits s' in (c :: ds, rest)
      else ([], s)
  | [] => ([], [])
  end.




(** ** UUIDs *)

(** [[0-9A-F]] under the [i] flag. *)
Definition is_hex (c : N) : bool :=
  (is_digit c || (65 <=? c) && (c <=? 70) || (97 <=? c) && (c <=? 102))%N.

(** [/^[0-9A-F]{8}-[0-9A-F]{4}-[0-9A-F]{4}-[0-9A-F]{4}-[0-9A-F]{12}$/i] *)
Definition uuidRegex : regex :=
  Cat (Rep 8 (Class is_hex)) (Cat (Lit (js "-"))
  (Cat (Rep 4 (Class is_hex)) (Cat (Lit (js "-"))
  (Cat (Rep 4 (Class is_hex)) (Cat (Lit (js "-"))
  (Cat (Rep 4 (Class is_hex)) (Cat (Lit (js "-"))
  (Rep 12 (Class is_hex))))))))).

Definition isUuid (input : list N) : bool := regex_test uuidRegex input.

(** [notUuidValidator(input)]: [Some] is the message of the error thrown. *)
Definition notUuidValidator (input : list N) : option (list N) :=
  if isUuid input then Some (js "Do not use UUIDs for custom IDs") else None.

(** A nonempty string of digits. *)
Definition digit_string (ds : list N) : Prop :=
  ds <> [] /\ Forall (fun c => is_digit c = true) ds.




(** ** Delays *)

Fixpoint drop_spaces (s : list N) : list N :=
  match s with
  | c :: s' => if is_space c then drop_spaces s' else s
  | [] => []
  end.

(** [s.trim()] *)
Definition trim (s : list N) : list N :=
  reverse (drop_spaces (reverse (drop_spaces s))).

(** [/^\d+$/] *)
Definition pureDigits : regex := Plus (Class is_digit).

(** [/\d+\s?(words)$/], which may start anywhere in the input. *)
Definition amount_with_unit (words : regex) : regex :=
  Cat anything (Cat (Plus (Class is_digit)) (Cat (Opt (Class is_space)) words)).

(** [word] followed by an optional [s]. *)
Definition plural (word : string) : regex := Cat (Lit (js word)) (Opt (Lit (js "s"))).

(** [(ms|milliseconds?)], [(s|secs?|seconds?)], [(m|mins?|minutes?)],
    [(hr?|hours?)] and [(d|days?)] *)
Definition milliseconds_words : regex := Alt (Lit (js "ms")) (plural "millisecond").
Definition secs_words : regex := Alt (Lit (js "s")) (Alt (plural "sec") (plural "second")).
Definition mins_words : regex := Alt (Lit (js "m")) (Alt (plural "min") (plural "minute")).
Definition hours_words : regex :=
  Alt (Cat (Lit (js "h")) (Opt (Lit (js "r")))) (plural "hour").
Definition days_words : regex := Alt (Lit (js "d")) (plural "day").

(** [arg.match(/\d+/)]: the first longest run of digits, if there is a
    digit at all. *)
Fixpoint first_digits (s : list N) : option (list N) :=
  match s with
  | c :: s' => if is_digit c then Some (fst (span_digits s)) else first_digits s'
  | [] => None
  end.

(** [parseDelay(arg)]; [inl] is the message of the error thrown. *)
Definition parseDelay (arg : list N) : list N + Z :=
  let arg := trim arg in
  if regex_test pureDigits arg then inr (Number_digits arg)
  else
    let numericalMatch := first_digits arg in
    let numericalPart := Number_digits <$> numericalMatch in
    let unitMultiplier : option Z := None in
    let unitMultiplier :=
      if regex_test (amount_with_unit milliseconds_words) arg
      then Some 1%Z else unitMultiplier in
    let unitMultiplier :=
      if regex_test (amount_with_unit secs_words) arg
      then Some 1000%Z else unitMultiplier in
    let unitMultiplier :=
      if regex_test (amount_with_unit mins_words) arg
      then Some (60 * 1000)%Z else unitMultiplier in
    let unitMultiplier :=
      if regex_test (amount_with_unit hours_words) arg
      then Some (60 * 60 * 1000)%Z else unitMultiplier in
    let unitMultiplier :=
      if regex_test (amount_with_unit days_words) arg
      then Some (24 * 60 * 60 * 1000)%Z else unitMultiplier in
    match numericalPart, unitMultiplier with
    | Some n, Some u =>
        if (n =? 0)%Z || (u =? 0)%Z
        then inl (js "Could not parse delay: " ++ arg)
        else inr (n * u)%Z
    | _, _ => inl (js "Could not parse delay: " ++ arg)
    end.

(** ** The skip command

    [runCommand] of the skip command.  The [Session] class is not among the
    sources, so the command is given what it gets from it: [found] is
    [None] when [sessions.get] finds no session, [Some None] when
    [getCurrentTrack] returns nothing after [skip], and [Some (Some σ)] when
    it returns a track, [σ] being that track with the store it lives in.
    The result is the contents passed to [interaction.editReply], whether
    [attachPlayerButtons] was called, and the state of the track
    afterwards. *)
Definition skip_runCommand (env : Services) (found : option (option State))
  : list string * bool * option State :=
  match found with
  | None => (["Session does not exist."], false, None)
  | Some None => (["Skipped."], false, None)
  | Some (Some σ) =>
      match getVideoDetails env σ with
      | (Resolved r, σ') =>
          (["Skipped. Now playing: " +:+ title (heap σ' !!! r)], true, Some σ')
      | (Rejected _, σ') => (["Skipped."], true, Some σ')
      end
  end.

(** Whether a number below 100 is formatted as two digits that read as it. *)
Definition pad2_ok (k : nat) : bool :=
  match padStart_2_0 (String_of_Z (Z.of_nat k)) with
  | [d1; d2] => is_digit d1 && is_digit d2 && (Number_digits [d1; d2] =? Z.of_nat k)%Z
  | _ => false
  end.

(** ** Proof automation *)

Ltac unfold_async :=
  unfold getAudioResource, createAudioResource, tryPlayDl, tryYtdlExec, onError,
    play_stream, ytdlExec, try_catch, error, reject, get_this, when_truthy,
    mbind, mret, Async_bind, Async_ret; simpl.

Ltac unfold_details :=
  unfold getVideoDetails, spread_details, getYoutubeDetailsFromUrl, spread, alloc,
    set_details, get_this, reject, mbind, mret, Async_bind, Async_ret; simpl.

Ltac norm_pow :=
  change (Z.of_nat 0) with 0%Z; change (Z.of_nat 1) with 1%Z;
  change (Z.of_nat 2) with 2%Z; change (60 ^ 0)%Z with 1%Z;
  change (60 ^ 1)%Z with 60%Z; change (60 ^ 2)%Z with 3600%Z.

(** * Properties *)

(** ** Resolution: [createAudioResource] *)

Section Resolution.

Variable env : Services.

(** When play-dl is not attempted, the call is the youtube-dl-exec attempt. *)
Lemma createAudioResource_direct options σ :
  attempts_play_dl (this σ) options = false ->
  createAudioResource env options σ = tryYtdlExec env (seek options) (speed options) σ.
Proof.
  unfold attempts_play_dl. intros H.
  unfold createAudioResource, get_this, mbind, mret, Async_bind, Async_ret.
  destruct (variant (this σ)); simpl in *;
    try reflexivity; rewrite H; reflexivity.
Qed.

(** When play-dl is attempted and succeeds, its resource is returned. *)
Lemma createAudioResource_play_dl_ok options σ src :
  attempts_play_dl (this σ) options = true ->
  play_stream_answer env (length (calls σ)) (link (this σ)) (play_dl_seek options) = inr src ->
  createAudioResource env options σ =
    (Resolved (voice_createAudioResource
                 (FromStream (PlayDlStream (stream src)) (type src)) (this σ)),
     record_call (CallPlayStream (link (this σ)) (play_dl_seek options)) σ).
Proof.
  unfold attempts_play_dl, play_dl_seek. intros H Hans.
  apply andb_true_iff in H as [Hv Hs].
  unfold_async.
  destruct (variant (this σ)); try discriminate; rewrite Hs; simpl;
    destruct (truthy (seek options)); simpl; rewrite Hans; reflexivity.
Qed.

(** When play-dl is attempted and fails, the error is logged and the call
    continues with the youtube-dl-exec attempt. *)
Lemma createAudioResource_play_dl_failed options σ e1 :
  attempts_play_dl (this σ) options = true ->
  play_stream_answer env (length (calls σ)) (link (this σ)) (play_dl_seek options) = inl e1 ->
  createAudioResource env options σ =
    tryYtdlExec env (seek options) (speed options)
      {| this := this σ; heap := heap σ;
         calls := calls σ ++ [CallPlayStream (link (this σ)) (play_dl_seek options)];
         log := log σ ++ [[LogText "Error playing resource from play-dl"; LogError e1]] |}.
Proof.
  unfold attempts_play_dl, play_dl_seek. intros H Hans.
  apply andb_true_iff in H as [Hv Hs].
  unfold_async.
  destruct (variant (this σ)); try discriminate; rewrite Hs; simpl;
    destruct (truthy (seek options)); simpl; rewrite Hans; reflexivity.
Qed.

(** The youtube-dl-exec attempt, by what happens to the child process. *)
Lemma tryYtdlExec_failed sk sp σ e :
  exec_error (ytdlExec_answer env (length (calls σ)) (link (this σ))) = Some e ->
  fst (tryYtdlExec env sk sp σ) = Rejected e /\
  this (snd (tryYtdlExec env sk sp σ)) = this σ /\
  heap (snd (tryYtdlExec env sk sp σ)) = heap σ /\
  calls (snd (tryYtdlExec env sk sp σ)) = calls σ ++ [CallYtdlExec (link (this σ))].
Proof.
  unfold_async. intros H.
  destruct (ytdlExec_answer env (length (calls σ)) (link (this σ))); simpl in *.
  - injection H as <-. auto.
  - discriminate.
  - injection H as <-. destruct (decide _); simpl; auto.
Qed.

Lemma tryYtdlExec_spawned sk sp σ stdout :
  ytdlExec_answer env (length (calls σ)) (link (this σ)) = Spawned stdout ->
  tryYtdlExec env sk sp σ =
    (Resolved (voice_createAudioResource
       (FromFfmpeg
          (when_truthy sk (fun s => setStartTime (Math_ceil s))
             (when_truthy sp (fun s => add_audioFilters (atempo s))
                (set_toFormat "mp3" (ffmpeg (ExecStdout stdout))))))
       (this σ)),
     record_call (CallYtdlExec (link (this σ))) σ).
Proof.
  intros H. unfold tryYtdlExec, ytdlExec, get_this, mbind, mret, Async_bind, Async_ret.
  rewrite H. reflexivity.
Qed.

End Resolution.

Lemma new_calls_app σ σ' cs : calls σ' = calls σ ++ cs -> new_calls σ σ' = cs.
Proof. unfold new_calls. intros ->. by rewrite drop_app_length. Qed.


(** C1, as the code has it: when every provider attempted fails,
    [createAudioResource] rejects with the error of the last provider
    (youtube-dl-exec) itself, unchanged; the track and the store are left as
    they were. *)
Theorem createAudioResource_all_fail_raw env options σ e :
  all_providers_fail env options σ e ->
  fst (createAudioResource env options σ) = Rejected e /\
  this (snd (createAudioResource env options σ)) = this σ /\
  heap (snd (createAudioResource env options σ)) = heap σ.
Proof.
  unfold all_providers_fail.
  destruct (attempts_play_dl (this σ) options) eqn:Hp.
  - intros [[e1 H1] H2].
    rewrite (createAudioResource_play_dl_failed env options σ e1 Hp H1).
    match goal with |- context [tryYtdlExec env ?a ?b ?s] =>
      destruct (tryYtdlExec_failed env a b s e) as (Hr & Ht & Hh & _) end.
    + simpl. rewrite length_app. simpl. by rewrite Nat.add_1_r.
    + by rewrite Hr, Ht, Hh.
  - intros H. rewrite (createAudioResource_direct env options σ Hp).
    destruct (tryYtdlExec_failed env (seek options) (speed options) σ e H) as (Hr & Ht & Hh & _).
    by rewrite Hr, Ht, Hh.
Qed.

Lemma createAudioResource_all_fail_raw_witness :
  fst (createAudioResource services_down no_options (no_details_state youtube_track))
    = Rejected (new_Error "No stdout").
Proof.
  refine (proj1 (createAudioResource_all_fail_raw services_down no_options
                   (no_details_state youtube_track) (new_Error "No stdout") _)).
  unfold all_providers_fail. simpl. split; [by eexists | reflexivity].
Defined.

(** C1, as stated, fails: with play-dl and youtube-dl-exec both failing, the
    promise is rejected with the plain [Error] of youtube-dl-exec, which is
    not a [ResolutionError]. *)
Lemma createAudioResource_no_ResolutionError :
  all_providers_fail services_down no_options (no_details_state youtube_track)
    (new_Error "No stdout") /\
  exists e,
    fst (createAudioResource services_down no_options (no_details_state youtube_track))
      = Rejected e /\
    ~ is_ResolutionError e.
Proof.
  split.
  - unfold all_providers_fail. simpl. split; [by eexists | reflexivity].
  - exists (new_Error "No stdout"). split; [reflexivity |].
    unfold is_ResolutionError. simpl. discriminate.
Qed.





Lemma is_zero_falsy z : is_zero z -> truthy_number z = false.
Proof.
  destruct z as [q| |]; simpl; try tauto.
  unfold Qeq. simpl. intros H. rewrite Z.mul_1_r in H. by rewrite H.
Qed.


(** An option tested only for truthiness can be replaced by [undefined]
    when it is falsy. *)
Lemma createAudioResource_falsy_seek env sk sp σ :
  truthy sk = false ->
  createAudioResource env {| seek := sk; speed := sp |} σ
  = createAudioResource env {| seek := None; speed := sp |} σ.
Proof.
  intros H. destruct sk as [n|]; [| reflexivity]. simpl in H.
  unfold_async. unfold truthy at 2. rewrite !H. reflexivity.
Qed.

Lemma createAudioResource_falsy_speed env sk sp σ :
  truthy sp = false ->
  createAudioResource env {| seek := sk; speed := sp |} σ
  = createAudioResource env {| seek := sk; speed := None |} σ.
Proof.
  intros H. destruct sp as [n|]; [| reflexivity]. simpl in H.
  unfold_async. unfold truthy at 1. rewrite !H. reflexivity.
Qed.

Lemma tryYtdlExec_calls env sk sp τ :
  calls (snd (tryYtdlExec env sk sp τ)) = calls τ ++ [CallYtdlExec (link (this τ))].
Proof.
  destruct (ytdlExec_answer env (length (calls τ)) (link (this τ))) eqn:Ha.
  - by destruct (tryYtdlExec_failed env sk sp τ (new_Error "No stdout")) as (_ & _ & _ & ->);
      [by rewrite Ha |].
  - by rewrite (tryYtdlExec_spawned env sk sp τ stdout Ha).
  - by destruct (tryYtdlExec_failed env sk sp τ err) as (_ & _ & _ & ->);
      [by rewrite Ha |].
Qed.

Lemma tryYtdlExec_resolved env sk sp τ r :
  fst (tryYtdlExec env sk sp τ) = Resolved r ->
  exists stdout,
    r = voice_createAudioResource (FromFfmpeg (exec_pipeline sk sp stdout)) (this τ).
Proof.
  destruct (ytdlExec_answer env (length (calls τ)) (link (this τ))) eqn:Ha.
  - destruct (tryYtdlExec_failed env sk sp τ (new_Error "No stdout")) as (-> & _);
      [by rewrite Ha | discriminate].
  - rewrite (tryYtdlExec_spawned env sk sp τ stdout Ha). simpl.
    intros [= <-]. by exists stdout.
  - destruct (tryYtdlExec_failed env sk sp τ err) as (-> & _);
      [by rewrite Ha | discriminate].
Qed.

(** The provider calls of one [createAudioResource], in order. *)
Lemma createAudioResource_calls env options σ :
  exists rest,
    new_calls σ (snd (createAudioResource env options σ))
    = (if attempts_play_dl (this σ) options
       then [CallPlayStream (link (this σ)) (play_dl_seek options)]
       else []) ++ rest /\
    (rest = [CallYtdlExec (link (this σ))] \/
     rest = [] /\ attempts_play_dl (this σ) options = true).
Proof.
  destruct (attempts_play_dl (this σ) options) eqn:Hp.
  - destruct (play_stream_answer env (length (calls σ)) (link (this σ)) (play_dl_seek options))
      as [e1 | src] eqn:Hans.
    + rewrite (createAudioResource_play_dl_failed env options σ e1 Hp Hans).
      exists [CallYtdlExec (link (this σ))]. split; [| by left].
      apply new_calls_app. rewrite tryYtdlExec_calls. simpl. by rewrite <- app_assoc.
    + rewrite (createAudioResource_play_dl_ok env options σ src Hp Hans).
      exists []. split; [| by right]. by apply new_calls_app.
  - rewrite (createAudioResource_direct env options σ Hp).
    exists [CallYtdlExec (link (this σ))]. split; [| by left].
    apply new_calls_app. by rewrite tryYtdlExec_calls.
Qed.

(** The resource of a resolved [createAudioResource]. *)
Lemma createAudioResource_resolved env options σ r :
  fst (createAudioResource env options σ) = Resolved r ->
  (attempts_play_dl (this σ) options = true /\
   exists src,
     play_stream_answer env (length (calls σ)) (link (this σ)) (play_dl_seek options) = inr src /\
     r = voice_createAudioResource
           (FromStream (PlayDlStream (stream src)) (type src)) (this σ)) \/
  (exists stdout,
     r = voice_createAudioResource
           (FromFfmpeg (exec_pipeline (seek options) (speed options) stdout)) (this σ)).
Proof.
  destruct (attempts_play_dl (this σ) options) eqn:Hp.
  - destruct (play_stream_answer env (length (calls σ)) (link (this σ)) (play_dl_seek options))
      as [e1 | src] eqn:Hans.
    + rewrite (createAudioResource_play_dl_failed env options σ e1 Hp Hans).
      intros H. right. by apply tryYtdlExec_resolved in H.
    + rewrite (createAudioResource_play_dl_ok env options σ src Hp Hans). simpl.
      intros [= <-]. left. split; [done |]. by exists src.
  - rewrite (createAudioResource_direct env options σ Hp).
    intros H. right. by apply tryYtdlExec_resolved in H.
Qed.

(** C9: a zero seek and a zero speed are falsy, so each behaves as if the
    option were omitted: with [seek = 0] play-dl is called without a seek
    and the ffmpeg pipeline gets no start time; with [speed = 0] play-dl is
    still attempted on a YouTube track and no [atempo] filter is added. *)
Theorem createAudioResource_zero_is_absent env σ z :
  is_zero z ->
  (forall sp,
     let options := {| seek := Some z; speed := sp |} in
     createAudioResource env options σ
       = createAudioResource env {| seek := None; speed := sp |} σ /\
     (forall l s, CallPlayStream l s ∈ new_calls σ (snd (createAudioResource env options σ)) ->
                  s = None) /\
     (forall r c, fst (createAudioResource env options σ) = Resolved r ->
                  input r = FromFfmpeg c -> startTime c = None)) /\
  (forall sk,
     let options := {| seek := sk; speed := Some z |} in
     createAudioResource env options σ
       = createAudioResource env {| seek := sk; speed := None |} σ /\
     (is_youtube (variant (this σ)) = true ->
      head (new_calls σ (snd (createAudioResource env options σ)))
        = Some (CallPlayStream (link (this σ)) (play_dl_seek options))) /\
     (forall r c, fst (createAudioResource env options σ) = Resolved r ->
                  input r = FromFfmpeg c -> audioFilters c = [])).
Proof.
  intros Hz. pose proof (is_zero_falsy z Hz) as Hf. split.
  - intros sp options. split; [by apply createAudioResource_falsy_seek |]. split.
    + intros l s Hin.
      destruct (createAudioResource_calls env options σ) as (rest & Hc & Hrest).
      rewrite Hc in Hin. apply elem_of_app in Hin as [Hin | Hin].
      * destruct (attempts_play_dl (this σ) options).
        -- apply list_elem_of_singleton in Hin. injection Hin as _ ->.
           unfold play_dl_seek, options. simpl. by rewrite Hf.
        -- by apply elem_of_nil in Hin.
      * destruct Hrest as [-> | [-> _]].
        -- apply list_elem_of_singleton in Hin. discriminate.
        -- by apply elem_of_nil in Hin.
    + intros r c Hr Hi.
      apply createAudioResource_resolved in Hr as [(_ & src & _ & ->) | (stdout & ->)];
        simpl in Hi; [discriminate |].
      injection Hi as <-. unfold exec_pipeline, when_truthy. rewrite Hf.
      destruct sp as [n|]; [destruct (truthy_number n) |]; reflexivity.
  - intros sk options. split; [by apply createAudioResource_falsy_speed |]. split.
    + intros Hv.
      destruct (createAudioResource_calls env options σ) as (rest & Hc & _).
      rewrite Hc.
      assert (Hp : attempts_play_dl (this σ) options = true).
      { unfold attempts_play_dl, options. simpl. by rewrite Hv, Hf. }
      by rewrite Hp.
    + intros r c Hr Hi.
      apply createAudioResource_resolved in Hr as [(_ & src & _ & ->) | (stdout & ->)];
        simpl in Hi; [discriminate |].
      injection Hi as <-. unfold exec_pipeline, when_truthy. rewrite Hf.
      destruct sk as [n|]; [destruct (truthy_number n) |]; reflexivity.
Qed.

Lemma createAudioResource_zero_is_absent_witness :
  createAudioResource services_up {| seek := Some (Num 0); speed := Some (Num 0) |}
    (no_details_state youtube_track)
  = createAudioResource services_up {| seek := None; speed := Some (Num 0) |}
      (no_details_state youtube_track).
Proof.
  refine (proj1 (proj1 (createAudioResource_zero_is_absent services_up
                          (no_details_state youtube_track) (Num 0) _) (Some (Num 0)))).
  simpl. reflexivity.
Defined.



(** The two providers at the seek [1.5]: play-dl is asked for [1.5],
    ffmpeg is started at [2]. *)
Example seek_one_and_a_half :
  calls (snd (createAudioResource services_up
                {| seek := Some (Num (3 # 2)); speed := None |}
                (no_details_state youtube_track)))
    = [CallPlayStream (link youtube_track) (Some (Num (3 # 2)))] /\
  (exists r c,
     fst (createAudioResource services_play_dl_down
            {| seek := Some (Num (3 # 2)); speed := None |}
            (no_details_state youtube_track)) = Resolved r /\
     input r = FromFfmpeg c /\
     startTime c = Some (Num 2)).
Proof.
  split; [reflexivity |]. eexists _, _. split; [reflexivity |]. split; reflexivity.
Qed.

(** ** Metadata: [getVideoDetails] *)

Lemma fresh_ref_not_live (h : gmap positive VideoDetails) : fresh (dom h) ∉ dom h.
Proof. apply is_fresh. Qed.

Lemma fresh_ref_ne (h : gmap positive VideoDetails) d : d ∈ dom h -> fresh (dom h) ≠ d.
Proof. intros Hd Heq. apply (fresh_ref_not_live h). by rewrite Heq. Qed.

Lemma lookup_total_live (h : gmap positive VideoDetails) d :
  d ∈ dom h -> h !! d = Some (h !!! d).
Proof.
  intros Hd. apply elem_of_dom in Hd as [v Hv].
  by rewrite (lookup_total_correct h d v Hv).
Qed.

Section Details.

Variable env : Services.

(** Details already there: the result is a new object with the same
    content; nothing else changes and no service is called. *)
Lemma getVideoDetails_populated σ d :
  details (this σ) = Some d ->
  getVideoDetails env σ =
    (Resolved (fresh (dom (heap σ))),
     {| this := this σ;
        heap := <[fresh (dom (heap σ)) := heap σ !!! d]> (heap σ);
        calls := calls σ; log := log σ |}).
Proof. intros H. unfold_details. rewrite H. simpl. rewrite H. reflexivity. Qed.

(** No details yet, YouTube, and the lookup succeeds with [v]. *)
Lemma getVideoDetails_fetch_ok σ v :
  details (this σ) = None ->
  is_youtube (variant (this σ)) = true ->
  youtube_details_answer env (length (calls σ)) (link (this σ)) = inr v ->
  let d := fresh (dom (heap σ)) in
  let r := fresh (dom (<[d := v]> (heap σ))) in
  getVideoDetails env σ =
    (Resolved r,
     {| this := {| link := link (this σ); variant := variant (this σ);
                   sourceLink := sourceLink (this σ); details := Some d |};
        heap := <[r := v]> (<[d := v]> (heap σ));
        calls := calls σ ++ [CallYoutubeDetails (link (this σ))];
        log := log σ |}).
Proof.
  destruct σ as [[l vr sl dt] h cs lg]. simpl. intros -> Hv Hans. unfold_details.
  destruct vr; try discriminate; simpl; rewrite Hans; simpl;
    rewrite lookup_total_insert_eq; reflexivity.
Qed.

(** No details yet, YouTube, and the lookup fails with [e]: the call rejects
    with [e] and nothing is memoized. *)
Lemma getVideoDetails_fetch_failed σ e :
  details (this σ) = None ->
  is_youtube (variant (this σ)) = true ->
  youtube_details_answer env (length (calls σ)) (link (this σ)) = inl e ->
  getVideoDetails env σ =
    (Rejected e, record_call (CallYoutubeDetails (link (this σ))) σ).
Proof.
  destruct σ as [[l vr sl dt] h cs lg]. simpl. intros -> Hv Hans. unfold_details.
  destruct vr; try discriminate; simpl; rewrite Hans; reflexivity.
Qed.

(** No details yet and a Twitch variant: the placeholder is stored. *)
Lemma getVideoDetails_placeholder σ :
  details (this σ) = None ->
  is_youtube (variant (this σ)) = false ->
  let todo := {| title := "TODO"; duration := None |} in
  let d := fresh (dom (heap σ)) in
  let r := fresh (dom (<[d := todo]> (heap σ))) in
  getVideoDetails env σ =
    (Resolved r,
     {| this := {| link := link (this σ); variant := variant (this σ);
                   sourceLink := sourceLink (this σ); details := Some d |};
        heap := <[r := todo]> (<[d := todo]> (heap σ));
        calls := calls σ; log := log σ |}).
Proof.
  destruct σ as [[l vr sl dt] h cs lg]. simpl. intros -> Hv. unfold_details.
  destruct vr; try discriminate; simpl;
    rewrite lookup_total_insert_eq; reflexivity.
Qed.

End Details.




Lemma populated_state_live : details_live populated_state.
Proof.
  intros d. simpl. intros [= <-]. vm_compute. reflexivity.
Defined.







(** The copy made when details are there. *)
Lemma getVideoDetails_copy env σ d :
  details (this σ) = Some d ->
  d ∈ dom (heap σ) ->
  let σ' := snd (getVideoDetails env σ) in
  exists r,
    fst (getVideoDetails env σ) = Resolved r /\
    r ≠ d /\
    heap σ' !! r = heap σ !! d /\
    details (this σ') = Some d /\
    heap σ' !! d = heap σ !! d /\
    calls σ' = calls σ /\
    (forall f, heap (mutate r f σ') !! d = heap σ !! d).
Proof.
  intros Hd Hlive. rewrite (getVideoDetails_populated env σ d Hd). simpl.
  pose proof (fresh_ref_ne (heap σ) d Hlive) as Hne.
  exists (fresh (dom (heap σ))). split; [done |]. split; [done |].
  split; [by rewrite lookup_insert_eq, lookup_total_live |].
  split; [done |]. split; [by apply lookup_insert_ne |]. split; [done |].
  intros f. by rewrite !lookup_insert_ne.
Qed.

(** A resolved call leaves the details populated and live. *)
Lemma getVideoDetails_resolved env σ r1 :
  details_live σ ->
  fst (getVideoDetails env σ) = Resolved r1 ->
  let σ1 := snd (getVideoDetails env σ) in
  exists d,
    details (this σ1) = Some d /\
    d ∈ dom (heap σ1) /\
    r1 ≠ d /\
    heap σ1 !! r1 = heap σ1 !! d /\
    fetches σ1 = fetches σ + (if needs_fetch (this σ) then 1 else 0).
Proof.
  intros Hlive. unfold needs_fetch.
  destruct (details (this σ)) as [d|] eqn:Hd.
  - destruct (getVideoDetails_copy env σ d Hd (Hlive d Hd))
      as (r & Hr & Hne & Hcopy & Hdet & Hkeep & Hcalls & _).
    rewrite Hr. intros [= <-]. simpl. exists d. split; [done |].
    split; [apply elem_of_dom; rewrite Hkeep; apply elem_of_dom; by apply Hlive |].
    split; [done |]. split; [by rewrite Hcopy, Hkeep |].
    unfold fetches. rewrite Hcalls. lia.
  - destruct (is_youtube (variant (this σ))) eqn:Hv.
    + destruct (youtube_details_answer env (length (calls σ)) (link (this σ)))
        as [e | v] eqn:Hans.
      * rewrite (getVideoDetails_fetch_failed env σ e Hd Hv Hans). discriminate.
      * rewrite (getVideoDetails_fetch_ok env σ v Hd Hv Hans). simpl.
        intros [= <-]. exists (fresh (dom (heap σ))). split; [done |].
        assert (Hin : fresh (dom (heap σ)) ∈ dom (<[fresh (dom (heap σ)) := v]> (heap σ)))
          by (rewrite dom_insert_L; set_solver).
        pose proof (fresh_ref_ne _ _ Hin) as Hne.
        split; [rewrite dom_insert_L; by apply elem_of_union_r |]. split; [done |].
        split; [by rewrite lookup_insert_eq, lookup_insert_ne, lookup_insert_eq |].
        unfold fetches. simpl. rewrite filter_app, length_app. reflexivity.
    + rewrite (getVideoDetails_placeholder env σ Hd Hv). simpl.
      intros [= <-]. exists (fresh (dom (heap σ))). split; [done |].
      set (todo := {| title := "TODO"; duration := None |}).
      assert (Hin : fresh (dom (heap σ)) ∈ dom (<[fresh (dom (heap σ)) := todo]> (heap σ)))
        by (rewrite dom_insert_L; set_solver).
      pose proof (fresh_ref_ne _ _ Hin) as Hne.
      split; [rewrite dom_insert_L; by apply elem_of_union_r |]. split; [done |].
      split; [by rewrite lookup_insert_eq, lookup_insert_ne, lookup_insert_eq |].
      unfold fetches. simpl. lia.
Qed.

(** C4, as the code has it: [getVideoDetails] answers from the memoized
    details when they are there, making no call and returning a new object
    with their content; after a call that resolved, a second call makes no
    fetch, so the two calls together make at most one fetch (exactly one
    when the track is a YouTube one that had no details, none otherwise);
    a call that rejects memoizes nothing; and assigning to a returned
    object leaves the memoized details as they were. *)
Theorem getVideoDetails_memoized env σ :
  details_live σ ->
  (forall d, details (this σ) = Some d ->
     let σ' := snd (getVideoDetails env σ) in
     exists r,
       fst (getVideoDetails env σ) = Resolved r /\
       r ≠ d /\
       heap σ' !! r = heap σ !! d /\
       details (this σ') = Some d /\
       heap σ' !! d = heap σ !! d /\
       new_calls σ σ' = [] /\
       (forall f, heap (mutate r f σ') !! d = heap σ !! d)) /\
  (forall r1, fst (getVideoDetails env σ) = Resolved r1 ->
     let σ1 := snd (getVideoDetails env σ) in
     let σ2 := snd (getVideoDetails env σ1) in
     exists d r2,
       details (this σ1) = Some d /\
       fst (getVideoDetails env σ1) = Resolved r2 /\
       new_calls σ1 σ2 = [] /\
       fetches σ2 = fetches σ + (if needs_fetch (this σ) then 1 else 0) /\
       details (this σ2) = Some d /\
       heap σ2 !! d = heap σ1 !! d /\
       heap σ1 !! r1 = heap σ1 !! d /\
       heap σ2 !! r2 = heap σ1 !! d /\
       r1 ≠ d /\ r2 ≠ d /\
       (forall f, heap (mutate r1 f σ1) !! d = heap σ1 !! d) /\
       (forall f, heap (mutate r2 f σ2) !! d = heap σ1 !! d)) /\
  (forall e, fst (getVideoDetails env σ) = Rejected e ->
     let σ1 := snd (getVideoDetails env σ) in
     details (this σ) = None /\
     this σ1 = this σ /\
     heap σ1 = heap σ /\
     new_calls σ σ1 = [CallYoutubeDetails (link (this σ))]).
Proof.
  intros Hlive. split; [| split].
  - intros d Hd σ'.
    destruct (getVideoDetails_copy env σ d Hd (Hlive d Hd))
      as (r & Hr & Hne & Hcopy & Hdet & Hkeep & Hcalls & Hmut).
    exists r. repeat (split; [done |]). split; [| done].
    apply new_calls_app. subst σ'. by rewrite Hcalls, app_nil_r.
  - intros r1 Hr1 σ1 σ2.
    destruct (getVideoDetails_resolved env σ r1 Hlive Hr1)
      as (d & Hd1 & Hlive1 & Hne1 & Hcopy1 & Hfetch1).
    fold σ1 in Hd1, Hlive1, Hcopy1, Hfetch1.
    destruct (getVideoDetails_copy env σ1 d Hd1 Hlive1)
      as (r2 & Hr2 & Hne2 & Hcopy2 & Hdet2 & Hkeep2 & Hcalls2 & Hmut2).
    fold σ2 in Hcopy2, Hdet2, Hkeep2, Hcalls2, Hmut2.
    exists d, r2. split; [done |]. split; [done |].
    split; [apply new_calls_app; by rewrite Hcalls2, app_nil_r |].
    split; [unfold fetches in *; by rewrite Hcalls2 |].
    repeat (split; [done |]). split; [| done].
    intros f. unfold mutate. simpl. by rewrite lookup_insert_ne.
  - intros e.
    destruct (details (this σ)) as [d|] eqn:Hd.
    { rewrite (getVideoDetails_populated env σ d Hd). discriminate. }
    destruct (is_youtube (variant (this σ))) eqn:Hv.
    + destruct (youtube_details_answer env (length (calls σ)) (link (this σ)))
        as [e' | v] eqn:Hans.
      * rewrite (getVideoDetails_fetch_failed env σ e' Hd Hv Hans). simpl.
        intros _. repeat (split; [done |]). by apply new_calls_app.
      * rewrite (getVideoDetails_fetch_ok env σ v Hd Hv Hans). discriminate.
    + rewrite (getVideoDetails_placeholder env σ Hd Hv). discriminate.
Qed.

(** C4, as stated, fails: on a Twitch track two calls resolve without any
    fetch, and on a YouTube track whose lookup fails each of the two calls
    fetches. *)
Lemma getVideoDetails_twice_not_one_fetch :
  (let σ1 := snd (getVideoDetails services_up (no_details_state twitch_track)) in
   let σ2 := snd (getVideoDetails services_up σ1) in
   (exists r1 r2,
      fst (getVideoDetails services_up (no_details_state twitch_track)) = Resolved r1 /\
      fst (getVideoDetails services_up σ1) = Resolved r2) /\
   fetches σ2 = 0) /\
  (let τ1 := snd (getVideoDetails services_down (no_details_state youtube_track)) in
   let τ2 := snd (getVideoDetails services_down τ1) in
   fetches τ2 = 2).
Proof.
  split.
  - split; [| vm_compute; reflexivity].
    exists 2%positive, 3%positive. split; vm_compute; reflexivity.
  - vm_compute; reflexivity.
Qed.

Lemma getVideoDetails_memoized_witness :
  exists r,
    fst (getVideoDetails services_up populated_state) = Resolved r /\
    r ≠ 1%positive /\
    heap (snd (getVideoDetails services_up populated_state)) !! r
      = heap populated_state !! 1%positive /\
    details (this (snd (getVideoDetails services_up populated_state))) = Some 1%positive /\
    heap (snd (getVideoDetails services_up populated_state)) !! 1%positive
      = heap populated_state !! 1%positive /\
    new_calls populated_state (snd (getVideoDetails services_up populated_state)) = [] /\
    (forall f, heap (mutate r f (snd (getVideoDetails services_up populated_state)))
                 !! 1%positive = heap populated_state !! 1%positive).
Proof.
  apply (proj1 (getVideoDetails_memoized services_up populated_state populated_state_live)).
  reflexivity.
Defined.

(** ** Pause and resume *)

(** C7: [pause] outside [playing] and [resume] outside [paused] return
    [false] and leave the session, its status included, as it was; the
    pause command then answers that it could not pause. *)
Theorem pause_resume_invalid_is_noop (s : Session) :
  (status s ≠ playing -> pause s = (false, s)) /\
  (status s ≠ paused -> resume s = (false, s)) /\
  (fst (pause s) = false -> status (snd (pause s)) = status s) /\
  (fst (resume s) = false -> status (snd (resume s)) = status s) /\
  (forall sessions guild,
     sessions !! guild = Some s -> status s ≠ playing ->
     pause_runCommand sessions guild = ("Could not pause.", sessions)).
Proof.
  unfold pause, resume, pause_runCommand.
  split; [| split; [| split; [| split]]].
  - intros H. destruct (status s); simpl; try reflexivity. exfalso. by apply H.
  - intros H. destruct (status s); simpl; try reflexivity. exfalso. by apply H.
  - destruct (status s) eqn:E; simpl; intros; first [discriminate | exact E].
  - destruct (status s) eqn:E; simpl; intros; first [discriminate | exact E].
  - intros sessions guild Hs H. rewrite Hs. unfold pause.
    destruct (status s) eqn:E; simpl; first [by rewrite insert_id | by destruct H].
Qed.

Lemma pause_resume_invalid_is_noop_witness :
  pause idle_session = (false, idle_session) /\
  resume idle_session = (false, idle_session).
Proof.
  split.
  - apply (proj1 (pause_resume_invalid_is_noop idle_session)). discriminate.
  - apply (proj1 (proj2 (pause_resume_invalid_is_noop idle_session))). discriminate.
Defined.

(** ** [shuffleArray] *)

Section ShuffleProperties.

Context {T : Type}.
Implicit Types (array l p : list T) (i j k n : nat) (js : list nat).










End ShuffleProperties.

Section RandomIndex.




Variable random : nat -> Q.
Hypothesis random_range : forall k, (0 <= random k)%Q /\ (random k < 1)%Q.




End RandomIndex.

Section ShuffleUniform.

Context {T : Type}.
Implicit Types (array l p : list T) (i j k n : nat) (js : list nat).




End ShuffleUniform.







(** * Other functions of [src/utils.ts] *)

(** ** [getIntersection] *)

(** X1: the intersection holds exactly the elements of [a] that the
    comparator matches with some element of [b], in the order they have in
    [a]; each element of [a] is kept or dropped on its own, so repetitions
    in [a] stay. *)
Theorem getIntersection_members_in_order {T} (a b : list T) (comparator : T -> T -> bool) :
  (forall x, x ∈ getIntersection a b comparator <->
             x ∈ a /\ exists y, y ∈ b /\ comparator x y = true) /\
  sublist (getIntersection a b comparator) a /\
  (forall a', getIntersection (a ++ a') b comparator
              = getIntersection a b comparator ++ getIntersection a' b comparator) /\
  getIntersection a [] comparator = [].
Proof.
  unfold getIntersection. split; [| split; [| split]].
  - intros x. rewrite !list_elem_of_In, filter_In, existsb_exists.
    split; intros [Hx (y & Hy & Hc)]; (split; [done |]); exists y;
      (split; [by apply list_elem_of_In | done]).
  - induction a as [| x a IH]; simpl; [done |].
    destruct (existsb _ b); [by apply sublist_skip | by apply sublist_cons].
  - intros a'. apply List.filter_app.
  - induction a as [| x a IH]; simpl; done.
Qed.

(** ** [shorten] *)

Lemma length_js_dots : length (js "...") = 3.
Proof. reflexivity. Qed.

(** X2: a message that fits is returned as it is; any other message is cut
    to the first [floor(length)] code units followed by ["..."], so the
    result is three code units longer than the limit asked for; with a
    negative or [NaN] limit the result is ["..."] alone, even for the empty
    message. *)
Theorem shorten_cuts_and_appends_dots (msg : list N) (n : number) :
  (length_le (length msg) n = true -> shorten msg n = msg) /\
  (length_le (length msg) n = false ->
     shorten msg n = take (clamp_index n (length msg)) msg ++ js "..." /\
     length (shorten msg n) = clamp_index n (length msg) + 3) /\
  (forall k : nat, n = Num (inject_Z (Z.of_nat k)) ->
     length (shorten msg n) <= k + 3 /\
     (k < length msg -> length (shorten msg n) = k + 3)) /\
  (n = NaN \/ (exists q, n = Num q /\ (q < 0)%Q) -> shorten msg n = js "...").
Proof.
  unfold shorten, substring_from_0. split; [| split; [| split]].
  - by intros ->.
  - intros ->. split; [done |].
    rewrite length_app, length_take, length_js_dots.
    assert (clamp_index n (length msg) <= length msg); [| lia].
    destruct n as [q | | []]; simpl; lia.
  - intros k ->. unfold length_le, clamp_index. rewrite Qfloor_Z, Nat2Z.id.
    destruct (Qle_bool _ _) eqn:E.
    + apply Qle_bool_iff in E. rewrite <- Zle_Qle in E. split; lia.
    + rewrite length_app, length_take, length_js_dots. split; lia.
  - intros [-> | (q & -> & Hq)]; simpl; [done |].
    assert (Hf : (Qfloor q < 0)%Z).
    { rewrite Zlt_Qlt. eapply Qle_lt_trans; [apply Qfloor_le | done]. }
    destruct (Qle_bool _ _) eqn:E.
    + apply Qle_bool_iff in E. exfalso.
      apply (Qlt_irrefl 0). eapply Qle_lt_trans; [| exact Hq].
      eapply Qle_trans; [| exact E]. change 0%Q with (inject_Z 0).
      rewrite <- Zle_Qle. lia.
    + replace (Z.to_nat (Qfloor q)) with 0 by lia. by rewrite Nat.min_0_l.
Qed.

Lemma shorten_cuts_and_appends_dots_witness :
  shorten (js "hello world") (Num 5) = js "hello...".
Proof.
  etransitivity;
    [apply (proj1 (proj1 (proj2 (shorten_cuts_and_appends_dots (js "hello world") (Num 5)))
                     eq_refl)) |].
  reflexivity.
Defined.

(** ** [chunkString] *)

Section ChunkString.

Context {C : Type}.
Implicit Types (str : list C) (chunks : list (list C)).

Lemma take_min_length (s : nat) (l : list C) : take (Nat.min s (length l)) l = take s l.
Proof.
  destruct (decide (s <= length l)).
  - by rewrite Nat.min_l.
  - rewrite Nat.min_r by lia. by rewrite !take_ge by lia.
Qed.

(** The slice pushed by the iteration [i]. *)
Lemma slice_window str (s i : nat) :
  i * s < length str ->
  slice str (Z.of_nat i * Z.of_nat s) (Z.of_nat i * Z.of_nat s + Z.of_nat s)
  = window s str i.
Proof.
  intros Hi. unfold slice, slice_index, window.
  rewrite (proj2 (Z.ltb_ge _ _)) by lia. rewrite (proj2 (Z.ltb_ge _ _)) by lia.
  replace (Z.to_nat (Z.of_nat i * Z.of_nat s)) with (i * s) by lia.
  replace (Z.to_nat (Z.of_nat i * Z.of_nat s + Z.of_nat s)) with (i * s + s) by lia.
  rewrite (Nat.min_l (i * s)) by lia.
  replace (Nat.min (i * s + s) (length str) - i * s)
    with (Nat.min s (length (drop (i * s) str))) by (rewrite length_drop; lia).
  apply take_min_length.
Qed.

Lemma chunk_count_spec (n s i : nat) :
  0 < s -> i < (n + s - 1) / s <-> i * s < n.
Proof.
  intros Hs.
  pose proof (Nat.div_mod_eq (n + s - 1) s).
  pose proof (Nat.mod_upper_bound (n + s - 1) s ltac:(lia)).
  split; intros; nia.
Qed.

Lemma chunkString_loop_windows str (s : nat) :
  0 < s ->
  forall fuel i chunks,
    (length str + s - 1) / s - i <= fuel ->
    chunkString_loop fuel str (Z.of_nat s) (Z.of_nat i) chunks
    = Some (chunks ++ (window s str <$> seq i ((length str + s - 1) / s - i))).
Proof.
  intros Hs. set (N := (length str + s - 1) / s).
  induction fuel as [| fuel IH]; intros i chunks Hfuel;
    pose proof (chunk_count_spec (length str) s i Hs) as Hcnt; fold N in Hcnt.
  - assert (Hdone : ~ i * s < length str) by (intros Hc; apply Hcnt in Hc; lia).
    simpl. rewrite (proj2 (Z.ltb_ge _ _)) by lia.
    replace (N - i) with 0 by lia. by rewrite app_nil_r.
  - cbn [chunkString_loop].
    destruct (decide (i * s < length str)) as [Hlt | Hge].
    + rewrite (proj2 (Z.ltb_lt _ _)) by lia.
      rewrite slice_window by done.
      replace (Z.of_nat i + 1)%Z with (Z.of_nat (S i)) by lia.
      rewrite IH by lia.
      assert (Hi : i < N) by (by apply Hcnt).
      replace (N - i) with (S (N - S i)) by lia.
      simpl. by rewrite <- app_assoc.
    + rewrite (proj2 (Z.ltb_ge _ _)) by lia.
      assert (~ i < N) by (intros Hc; by apply Hcnt in Hc).
      replace (N - i) with 0 by lia. by rewrite app_nil_r.
Qed.

Lemma concat_windows_from str (s : nat) cnt i :
  length str <= (i + cnt) * s ->
  concat (window s str <$> seq i cnt) = drop (i * s) str.
Proof.
  revert i. induction cnt as [| cnt IH]; intros i Hlen; simpl.
  - by rewrite drop_ge by lia.
  - rewrite IH by lia. unfold window.
    replace (S i * s) with (i * s + s) by lia.
    by rewrite <- drop_drop, take_drop.
Qed.

(** X3: for a positive size the loop ends, with any fuel of at least the
    length of the string, and returns the consecutive windows of [size]
    code units: their concatenation is the string, there are
    [ceil(length / size)] of them, and each has between one and [size]
    code units. *)
Theorem chunkString_windows str (size : Z) :
  (0 < size)%Z ->
  exists chunks,
    (forall fuel, length str <= fuel -> chunkString fuel str size = Some chunks) /\
    concat chunks = str /\
    Z.of_nat (length chunks) = ((Z.of_nat (length str) + size - 1) / size)%Z /\
    (forall k c, chunks !! k = Some c ->
       c = take (Z.to_nat size) (drop (k * Z.to_nat size) str) /\
       0 < length c <= Z.to_nat size).
Proof.
  intros Hsize. set (s := Z.to_nat size).
  assert (Hs : 0 < s) by lia.
  assert (Hz : size = Z.of_nat s) by lia.
  set (N := (length str + s - 1) / s).
  assert (HN : N <= length str).
  { destruct (decide (N = 0)) as [-> | Hne]; [lia |].
    assert (Hlast : N - 1 < N) by lia.
    apply chunk_count_spec in Hlast; [| done]. nia. }
  exists (windows s str). split; [| split; [| split]].
  - intros fuel Hfuel. unfold chunkString. rewrite Hz.
    change 0%Z with (Z.of_nat 0).
    rewrite chunkString_loop_windows by (fold N; lia || done).
    unfold windows. by rewrite Nat.sub_0_r.
  - unfold windows. rewrite concat_windows_from; [done |].
    fold N. destruct (decide (N * s < length str)) as [Hlt | Hge]; [| simpl; lia].
    apply chunk_count_spec in Hlt; [| done]. fold N in Hlt. lia.
  - unfold windows. rewrite length_fmap, length_seq. fold s N. rewrite Hz.
    unfold N. rewrite Nat2Z.inj_div. f_equal. lia.
  - intros k c Hk. unfold windows in Hk. fold N in Hk.
    rewrite list_lookup_fmap in Hk.
    destruct (seq 0 N !! k) as [k' |] eqn:Hseq; [| discriminate].
    apply lookup_seq in Hseq as [-> Hlt]. simpl in Hk. injection Hk as <-.
    split; [done |]. unfold window. rewrite length_take, length_drop.
    apply chunk_count_spec in Hlt; [| done]. lia.
Qed.



End ChunkString.

Lemma chunkString_windows_witness :
  exists chunks,
    chunkString 7 (js "abcdefg") 3 = Some chunks /\ concat chunks = js "abcdefg".
Proof.
  destruct (chunkString_windows (js "abcdefg") 3 ltac:(lia)) as (chunks & Hrun & Hcat & _).
  exists chunks. split; [apply Hrun; simpl; lia | exact Hcat].
Defined.


(** ** [getUniqueId] *)

Lemma getUniqueId_calls_below (n : nat) (id : Z) :
  (0 <= id)%Z -> (id + Z.of_nat n <= 2 ^ 53)%Z ->
  getUniqueId_calls n id = (fun k => (id + Z.of_nat k)%Z) <$> seq 1 n.
Proof.
  revert id. induction n as [| n IH]; intros id H0 Hn; [done |].
  cbn [getUniqueId_calls getUniqueId]. unfold double_add_1.
  rewrite (proj2 (Z.ltb_lt _ _)) by lia.
  rewrite IH by lia. cbn [seq fmap list_fmap]. f_equal.
  rewrite <- (fmap_S_seq 1 n), <- list_fmap_compose.
  apply list_fmap_ext. intros _ k _. simpl. lia.
Qed.

(** X5: the [k]-th call returns [k], so the first [2^53] calls return
    pairwise different ids; from then on the counter is stuck and every
    call returns [2^53] again. *)
Theorem getUniqueId_distinct_until_2_53 (n : nat) :
  (Z.of_nat n <= 2 ^ 53)%Z ->
  getUniqueId_calls n 0 = Z.of_nat <$> seq 1 n /\
  NoDup (getUniqueId_calls n 0) /\
  getUniqueId (2 ^ 53) = ((2 ^ 53)%Z, (2 ^ 53)%Z).
Proof.
  intros Hn.
  assert (Heq : getUniqueId_calls n 0 = Z.of_nat <$> seq 1 n).
  { rewrite getUniqueId_calls_below by lia. apply list_fmap_ext. intros _ k _. simpl. lia. }
  split; [done |]. split; [| reflexivity].
  rewrite Heq. apply NoDup_fmap; [apply _ | apply NoDup_seq].
Qed.

Lemma getUniqueId_distinct_until_2_53_witness :
  getUniqueId_calls 3 0 = [1; 2; 3]%Z.
Proof.
  refine (eq_trans (proj1 (getUniqueId_distinct_until_2_53 3 _)) _); [| reflexivity].
  vm_compute. discriminate.
Defined.

(** ** [getRandomElement] *)



(** ** [camelCaseToSnakeCase] *)





(** ** Regular expressions: the test decides the language *)

Lemma nullable_spec r : nullable r = true <-> Matches r [].
Proof.
  split.
  - induction r; simpl; intros H; try discriminate.
    + constructor.
    + apply andb_true_iff in H as [H1 H2].
      change (@nil N) with (@nil N ++ []). constructor; auto.
    + apply orb_true_iff in H as [H | H];
        [apply Matches_alt_l | apply Matches_alt_r]; auto.
    + constructor.
    + apply andb_true_iff in H as [H1 H2]. constructor; auto.
  - intros H. remember [] as s eqn:E. induction H; simpl; subst; try done.
    + apply app_eq_nil in E as [-> ->]. rewrite IHMatches1, IHMatches2; done.
    + rewrite IHMatches; done.
    + rewrite IHMatches, orb_true_r; done.
    + rewrite IHMatches1, IHMatches2; done.
Qed.

Lemma deriv_sound c r s : Matches (deriv c r) s -> Matches r (c :: s).
Proof.
  revert s. induction r; simpl; intros s H.
  - inversion H.
  - inversion H.
  - destruct (p c) eqn:Hp; inversion H; subst. by constructor.
  - inversion H as [| | | ? ? ? H1 | ? ? ? H1 | | |]; subst.
    + inversion H1; subst.
      change (c :: s1 ++ s2) with ((c :: s1) ++ s2). constructor; auto.
    + destruct (nullable r1) eqn:Hn; [| inversion H1].
      change (c :: s) with ([] ++ c :: s). constructor; [by apply nullable_spec | auto].
  - inversion H; subst; [apply Matches_alt_l | apply Matches_alt_r]; auto.
  - inversion H; subst.
    change (c :: s1 ++ s2) with ((c :: s1) ++ s2). constructor; auto.
  - inversion H; subst. constructor; auto.
Qed.

Lemma deriv_complete c r s : Matches r (c :: s) -> Matches (deriv c r) s.
Proof.
  intros H. remember (c :: s) as s' eqn:E. revert s E.
  induction H; intros t E; simpl.
  - discriminate.
  - injection E as -> <-. rewrite H. constructor.
  - destruct s1 as [| c1 s1]; simpl in E.
    + subst s2. apply Matches_alt_r.
      rewrite (proj2 (nullable_spec r1) H). auto.
    + injection E as -> <-. apply Matches_alt_l. constructor; auto.
  - apply Matches_alt_l. auto.
  - apply Matches_alt_r. auto.
  - discriminate.
  - destruct s1 as [| c1 s1]; simpl in E.
    + subst s2. by apply IHMatches2.
    + injection E as -> <-. constructor; auto.
  - constructor; auto.
Qed.

Lemma regex_test_spec r s : regex_test r s = true <-> Matches r s.
Proof.
  unfold regex_test. revert r. induction s as [| c s IH]; intros r; simpl.
  - apply nullable_spec.
  - rewrite IH. split; [apply deriv_sound | apply deriv_complete].
Qed.


(** The derived forms. *)
Lemma Matches_cat_inv r1 r2 s :
  Matches (Cat r1 r2) s <-> exists s1 s2, s = s1 ++ s2 /\ Matches r1 s1 /\ Matches r2 s2.
Proof.
  split.
  - intros H. inversion H; subst. eauto.
  - intros (s1 & s2 & -> & H1 & H2). by constructor.
Qed.

Lemma Matches_alt_inv r1 r2 s : Matches (Alt r1 r2) s <-> Matches r1 s \/ Matches r2 s.
Proof.
  split.
  - intros H. inversion H; subst; auto.
  - intros [H | H]; [by apply Matches_alt_l | by apply Matches_alt_r].
Qed.

Lemma Matches_eps_inv s : Matches Eps s <-> s = [].
Proof. split; [intros H; by inversion H | intros ->; constructor]. Qed.

Lemma Matches_class_inv p s : Matches (Class p) s <-> exists c, s = [c] /\ p c = true.
Proof.
  split.
  - intros H. inversion H; subst. eauto.
  - intros (c & -> & H). by constructor.
Qed.

Lemma Matches_opt_inv r s : Matches (Opt r) s <-> s = [] \/ Matches r s.
Proof. unfold Opt. by rewrite Matches_alt_inv, Matches_eps_inv. Qed.

Lemma Matches_star_class p s :
  Matches (Star (Class p)) s <-> Forall (fun c => p c = true) s.
Proof.
  split.
  - intros H. remember (Star (Class p)) as r eqn:E.
    induction H; try discriminate; [constructor |].
    injection E as ->. apply Forall_app. split; [| auto].
    inversion H; subst. by repeat constructor.
  - induction 1 as [| c s Hc _ IH]; [constructor |].
    change (c :: s) with ([c] ++ s). constructor; [by constructor | done].
Qed.

Lemma Matches_plus_class p s :
  Matches (Plus (Class p)) s <-> s <> [] /\ Forall (fun c => p c = true) s.
Proof.
  unfold Plus. rewrite Matches_cat_inv. split.
  - intros (s1 & s2 & -> & H1 & H2).
    apply Matches_class_inv in H1 as (c & -> & Hc).
    apply Matches_star_class in H2. split; [done |]. by constructor.
  - intros [Hne H]. destruct s as [| c s]; [done |].
    apply Forall_cons in H as [Hc H].
    exists [c], s. split; [done |]. split; [by constructor | by apply Matches_star_class].
Qed.


Lemma Matches_lit w s : Matches (Lit w) s <-> s = w.
Proof.
  revert s. induction w as [| c w IH]; intros s; simpl.
  - apply Matches_eps_inv.
  - rewrite Matches_cat_inv. split.
    + intros (s1 & s2 & -> & H1 & H2).
      apply Matches_class_inv in H1 as (c' & -> & Hc).
      apply N.eqb_eq in Hc as ->. apply IH in H2 as ->. done.
    + intros ->. exists [c], w. split; [done |].
      split; [constructor; apply N.eqb_refl | by apply IH].
Qed.

Lemma Matches_rep_class n p s :
  Matches (Rep n (Class p)) s <-> length s = n /\ Forall (fun c => p c = true) s.
Proof.
  revert s. induction n as [| n IH]; intros s; simpl.
  - rewrite Matches_eps_inv. split.
    + intros ->. by split.
    + intros [H _]. by destruct s.
  - rewrite Matches_cat_inv. split.
    + intros (s1 & s2 & -> & H1 & H2).
      apply Matches_class_inv in H1 as (c & -> & Hc).
      apply IH in H2 as [<- H2]. split; [done | by constructor].
    + intros [Hlen H]. destruct s as [| c s]; [discriminate |].
      apply Forall_cons in H as [Hc H]. injection Hlen as Hlen.
      exists [c], s. split; [done |]. split; [by constructor | by apply IH].
Qed.

(** ** Clock strings *)

Lemma pad2_ok_below_100 : forallb pad2_ok (seq 0 100) = true.
Proof. vm_compute. reflexivity. Qed.

(** A portion below 100 is formatted as two digits that read as it. *)
Lemma padStart_two_digits (n : Z) :
  (0 <= n < 100)%Z ->
  exists d1 d2,
    padStart_2_0 (String_of_Z n) = [d1; d2] /\
    is_digit d1 = true /\ is_digit d2 = true /\
    Number_digits [d1; d2] = n.
Proof.
  intros Hn.
  pose proof (proj1 (forallb_forall pad2_ok (seq 0 100)) pad2_ok_below_100 (Z.to_nat n)) as H.
  unfold pad2_ok in H. rewrite Z2Nat.id in H by lia.
  destruct (padStart_2_0 (String_of_Z n)) as [| d1 [| d2 [| ? ?]]];
    try (discriminate H; apply in_seq; lia).
  specialize (H ltac:(apply in_seq; lia)).
  apply andb_true_iff in H as [H H3]. apply andb_true_iff in H as [H1 H2].
  apply Z.eqb_eq in H3. by exists d1, d2.
Qed.

Lemma digit_not_colon d : is_digit d = true -> (d =? 58)%N = false.
Proof.
  unfold is_digit. intros H. apply andb_true_iff in H as [_ H].
  apply N.leb_le in H. apply N.eqb_neq. lia.
Qed.

Lemma Matches_digits_1_2 d1 d2 :
  is_digit d1 = true -> is_digit d2 = true -> Matches digits_1_2 [d1; d2].
Proof.
  intros H1 H2. apply Matches_cat_inv. exists [d1], [d2].
  split; [done |]. split; [by constructor |].
  apply Matches_opt_inv. right. by constructor.
Qed.

Lemma Matches_clock_prefix d1 d2 :
  is_digit d1 = true -> is_digit d2 = true ->
  Matches (Cat digits_1_2 (Lit (js ":"))) [d1; d2; 58%N].
Proof.
  intros H1 H2. apply Matches_cat_inv. exists [d1; d2], [58%N].
  split; [done |]. split; [by apply Matches_digits_1_2 | by apply Matches_lit].
Qed.

Lemma split_at_two_digits d1 d2 :
  is_digit d1 = true -> is_digit d2 = true ->
  split_at 58 [d1; d2] = [[d1; d2]] /\
  (forall rest, split_at 58 ([d1; d2] ++ js ":" ++ rest) = [d1; d2] :: split_at 58 rest).
Proof.
  intros H1 H2. change (js ":") with [58%N].
  split; [| intros rest]; cbn [split_at app];
    rewrite (digit_not_colon d1 H1), (digit_not_colon d2 H2); reflexivity.
Qed.

Lemma getSecondsFromClockString_1 d1 d2 :
  is_digit d1 = true -> is_digit d2 = true ->
  getSecondsFromClockString [d1; d2] = inr (Number_digits [d1; d2]).
Proof.
  intros H1 H2. unfold getSecondsFromClockString.
  rewrite (proj2 (regex_test_spec clockStringRegex [d1; d2])).
  - rewrite (proj1 (split_at_two_digits d1 d2 H1 H2)).
    unfold reduce_indexed. simpl. f_equal. norm_pow. ring.
  - apply Matches_cat_inv. exists [], [d1; d2]. split; [done |].
    split; [apply Matches_opt_inv; by left | by apply Matches_digits_1_2].
Qed.

Lemma getSecondsFromClockString_2 d1 d2 d3 d4 :
  is_digit d1 = true -> is_digit d2 = true ->
  is_digit d3 = true -> is_digit d4 = true ->
  getSecondsFromClockString ([d1; d2] ++ js ":" ++ [d3; d4])
  = inr (Number_digits [d3; d4] + 60 * Number_digits [d1; d2])%Z.
Proof.
  intros H1 H2 H3 H4. unfold getSecondsFromClockString.
  rewrite (proj2 (regex_test_spec clockStringRegex _)).
  - rewrite (proj2 (split_at_two_digits d1 d2 H1 H2)),
      (proj1 (split_at_two_digits d3 d4 H3 H4)).
    unfold reduce_indexed. simpl. f_equal. norm_pow. ring.
  - apply Matches_cat_inv. exists [d1; d2; 58%N], [d3; d4]. split; [done |].
    split; [| by apply Matches_digits_1_2].
    apply Matches_opt_inv. right. apply Matches_cat_inv.
    exists [d1; d2; 58%N], []. split; [done |].
    split; [by apply Matches_clock_prefix |].
    apply Matches_opt_inv. by left.
Qed.

Lemma getSecondsFromClockString_3 d1 d2 d3 d4 d5 d6 :
  is_digit d1 = true -> is_digit d2 = true ->
  is_digit d3 = true -> is_digit d4 = true ->
  is_digit d5 = true -> is_digit d6 = true ->
  getSecondsFromClockString ([d1; d2] ++ js ":" ++ [d3; d4] ++ js ":" ++ [d5; d6])
  = inr (Number_digits [d5; d6] + 60 * Number_digits [d3; d4]
         + 3600 * Number_digits [d1; d2])%Z.
Proof.
  intros H1 H2 H3 H4 H5 H6. unfold getSecondsFromClockString.
  rewrite (proj2 (regex_test_spec clockStringRegex _)).
  - rewrite (proj2 (split_at_two_digits d1 d2 H1 H2)),
      (proj2 (split_at_two_digits d3 d4 H3 H4)),
      (proj1 (split_at_two_digits d5 d6 H5 H6)).
    unfold reduce_indexed. simpl. f_equal. norm_pow. ring.
  - apply Matches_cat_inv. exists [d1; d2; 58%N; d3; d4; 58%N], [d5; d6]. split; [done |].
    split; [| by apply Matches_digits_1_2].
    apply Matches_opt_inv. right. apply Matches_cat_inv.
    exists [d1; d2; 58%N], [d3; d4; 58%N]. split; [done |].
    split; [by apply Matches_clock_prefix |].
    apply Matches_opt_inv. right. apply Matches_cat_inv.
    exists [d3; d4; 58%N], []. split; [done |].
    split; [by apply Matches_clock_prefix | constructor].
Qed.

Lemma getClockString_steps (durationMs minPortionLength : Z) :
  getClockString durationMs minPortionLength =
    let numHours := (durationMs / 3600000)%Z in
    let rest := (durationMs - numHours * 3600000)%Z in
    let numMins := (rest / 60000)%Z in
    let numSecs := ((rest - numMins * 60000) / 1000)%Z in
    let acc0 := clock_reducer minPortionLength 3 [] numHours 0 in
    let acc1 := clock_reducer minPortionLength 3 acc0 numMins 1 in
    let acc2 := clock_reducer minPortionLength 3 acc1 numSecs 2 in
    if is_empty_string acc2 then js "0" else acc2.
Proof. reflexivity. Qed.

Lemma getSecondsFromClockString_0 : getSecondsFromClockString (js "0") = inr 0%Z.
Proof. vm_compute. reflexivity. Qed.

(** X8: below one hundred hours, reading back the clock string of a
    duration gives the duration in whole seconds, whatever the number of
    portions required. *)
Theorem getClockString_round_trip (durationMs minPortionLength : Z) :
  (0 <= durationMs < 360000000)%Z ->
  getSecondsFromClockString (getClockString durationMs minPortionLength)
  = inr (durationMs / 1000)%Z.
Proof.
  intros Hd. rewrite getClockString_steps. cbv zeta.
  set (h := (durationMs / 3600000)%Z).
  set (m := ((durationMs - h * 3600000) / 60000)%Z).
  set (s := ((durationMs - h * 3600000 - m * 60000) / 1000)%Z).
  assert (Hh : (0 <= h < 100)%Z) by (subst h; Z.div_mod_to_equations; lia).
  assert (Hm : (0 <= m < 60)%Z) by (subst m h; Z.div_mod_to_equations; lia).
  assert (Hs : (0 <= s < 60)%Z) by (subst s m h; Z.div_mod_to_equations; lia).
  assert (Hsum : (durationMs / 1000 = s + 60 * m + 3600 * h)%Z)
    by (subst s m h; Z.div_mod_to_equations; lia).
  rewrite Hsum. clearbody h m s. clear Hsum Hd.
  destruct (padStart_two_digits h ltac:(lia)) as (a1 & a2 & Ha & Ha1 & Ha2 & Hav).
  destruct (padStart_two_digits m ltac:(lia)) as (b1 & b2 & Hb & Hb1 & Hb2 & Hbv).
  destruct (padStart_two_digits s ltac:(lia)) as (c1 & c2 & Hc & Hc1 & Hc2 & Hcv).
  unfold clock_reducer. rewrite Ha, Hb, Hc.
  destruct (h =? 0)%Z eqn:Eh; [apply Z.eqb_eq in Eh | clear Eh];
  destruct (m =? 0)%Z eqn:Em; [apply Z.eqb_eq in Em | clear Em | apply Z.eqb_eq in Em | clear Em];
  destruct (s =? 0)%Z eqn:Es;
  try apply Z.eqb_eq in Es;
  destruct (Z.of_nat 3 - minPortionLength <=? 0)%Z;
  destruct (Z.of_nat 3 - minPortionLength <=? 1)%Z;
  destruct (Z.of_nat 3 - minPortionLength <=? 2)%Z;
  cbn [is_empty_string andb negb app];
  first
    [ rewrite getSecondsFromClockString_0
    | refine (eq_trans (getSecondsFromClockString_3 a1 a2 b1 b2 c1 c2 Ha1 Ha2 Hb1 Hb2 Hc1 Hc2) _)
    | refine (eq_trans (getSecondsFromClockString_2 b1 b2 c1 c2 Hb1 Hb2 Hc1 Hc2) _)
    | refine (eq_trans (getSecondsFromClockString_1 c1 c2 Hc1 Hc2) _) ];
  f_equal; lia.
Qed.

(** ** URL timestamps *)

Lemma span_digits_app ds c rest :
  Forall (fun c => is_digit c = true) ds -> is_digit c = false ->
  span_digits (ds ++ c :: rest) = (ds, c :: rest).
Proof.
  intros Hds Hc. induction Hds as [| d ds Hd _ IH]; simpl.
  - by rewrite Hc.
  - by rewrite Hd, IH.
Qed.





Lemma not_all_digits_with ds (c : N) rest :
  is_digit c = false -> ~ Forall (fun c => is_digit c = true) (ds ++ c :: rest).
Proof.
  intros Hc H. apply Forall_app in H as [_ H]. apply Forall_cons in H as [H _]. congruence.
Qed.



(** ** UUIDs *)

(** X10: [isUuid] accepts exactly the strings made of five groups of 8, 4,
    4, 4 and 12 hexadecimal digits, of either case, separated by hyphens
    (so of 36 code units); nothing is asked of the version or variant
    digit; [notUuidValidator] throws on these strings and on no other. *)
Theorem isUuid_shape (input : list N) :
  (isUuid input = true <->
   exists a b c d e,
     input = a ++ js "-" ++ b ++ js "-" ++ c ++ js "-" ++ d ++ js "-" ++ e /\
     (length a = 8 /\ length b = 4 /\ length c = 4 /\ length d = 4 /\ length e = 12) /\
     Forall (fun x => is_hex x = true) (a ++ b ++ c ++ d ++ e)) /\
  (isUuid input = true -> length input = 36) /\
  (notUuidValidator input = Some (js "Do not use UUIDs for custom IDs") <->
   isUuid input = true) /\
  (notUuidValidator input = None <-> isUuid input = false).
Proof.
  assert (Hshape : isUuid input = true <->
   exists a b c d e,
     input = a ++ js "-" ++ b ++ js "-" ++ c ++ js "-" ++ d ++ js "-" ++ e /\
     (length a = 8 /\ length b = 4 /\ length c = 4 /\ length d = 4 /\ length e = 12) /\
     Forall (fun x => is_hex x = true) (a ++ b ++ c ++ d ++ e)).
  { unfold isUuid, uuidRegex. rewrite regex_test_spec. split.
    - intros H.
      destruct (proj1 (Matches_cat_inv _ _ _) H) as (a & r1 & -> & Ha & H1).
      destruct (proj1 (Matches_cat_inv _ _ _) H1) as (h1 & r2 & -> & ->%Matches_lit & H2).
      destruct (proj1 (Matches_cat_inv _ _ _) H2) as (b & r3 & -> & Hb & H3).
      destruct (proj1 (Matches_cat_inv _ _ _) H3) as (h2 & r4 & -> & ->%Matches_lit & H4).
      destruct (proj1 (Matches_cat_inv _ _ _) H4) as (c & r5 & -> & Hc & H5).
      destruct (proj1 (Matches_cat_inv _ _ _) H5) as (h3 & r6 & -> & ->%Matches_lit & H6).
      destruct (proj1 (Matches_cat_inv _ _ _) H6) as (d & r7 & -> & Hd & H7).
      destruct (proj1 (Matches_cat_inv _ _ _) H7) as (h4 & e & -> & ->%Matches_lit & He).
      apply Matches_rep_class in Ha as [? ?], Hb as [? ?], Hc as [? ?],
        Hd as [? ?], He as [? ?].
      exists a, b, c, d, e. split; [done |]. split; [done |].
      by rewrite !Forall_app.
    - intros (a & b & c & d & e & -> & (La & Lb & Lc & Ld & Le) & HF).
      rewrite !Forall_app in HF. destruct HF as (Fa & Fb & Fc & Fd & Fe).
      repeat (apply Matches_cat_inv; eexists _, _; split; [reflexivity |]; split;
              [first [by apply Matches_rep_class | by apply Matches_lit] |]).
      by apply Matches_rep_class. }
  split; [exact Hshape |]. split; [| split].
  - intros H. apply Hshape in H as (a & b & c & d & e & -> & (? & ? & ? & ? & ?) & _).
    rewrite !length_app. change (length (js "-")) with 1. lia.
  - unfold notUuidValidator. destruct (isUuid input); split; congruence.
  - unfold notUuidValidator. destruct (isUuid input); split; congruence.
Qed.

(** X16: below one hundred hours, the clock string is ["0"] under one
    second, [SS] under one minute, [MM:SS] under one hour and [HH:MM:SS]
    from one hour on, when no portion is required; with three required
    portions it always is [HH:MM:SS]. *)
Theorem getClockString_shape (durationMs minPortionLength : Z) :
  (0 <= durationMs < 360000000)%Z ->
  ((minPortionLength <= 0)%Z ->
     ((durationMs < 1000)%Z -> getClockString durationMs minPortionLength = js "0") /\
     ((1000 <= durationMs < 60000)%Z ->
        length (getClockString durationMs minPortionLength) = 2) /\
     ((60000 <= durationMs < 3600000)%Z ->
        length (getClockString durationMs minPortionLength) = 5) /\
     ((3600000 <= durationMs)%Z ->
        length (getClockString durationMs minPortionLength) = 8)) /\
  ((3 <= minPortionLength)%Z ->
     exists a1 a2 b1 b2 c1 c2,
       getClockString durationMs minPortionLength
         = [a1; a2] ++ js ":" ++ [b1; b2] ++ js ":" ++ [c1; c2] /\
       Forall (fun c => is_digit c = true) [a1; a2; b1; b2; c1; c2]).
Proof.
  intros Hd. rewrite getClockString_steps. cbv zeta.
  set (h := (durationMs / 3600000)%Z).
  set (m := ((durationMs - h * 3600000) / 60000)%Z).
  set (s := ((durationMs - h * 3600000 - m * 60000) / 1000)%Z).
  assert (Hh : (0 <= h < 100)%Z) by (subst h; Z.div_mod_to_equations; lia).
  assert (Hm : (0 <= m < 60)%Z) by (subst m h; Z.div_mod_to_equations; lia).
  assert (Hs : (0 <= s < 60)%Z) by (subst s m h; Z.div_mod_to_equations; lia).
  assert (Hh0 : (h = 0 <-> durationMs < 3600000)%Z)
    by (subst h; Z.div_mod_to_equations; lia).
  assert (Hm0 : (h = 0 -> (m = 0 <-> durationMs < 60000))%Z)
    by (subst m h; Z.div_mod_to_equations; lia).
  assert (Hs0 : (h = 0 -> m = 0 -> (s = 0 <-> durationMs < 1000))%Z)
    by (subst s m h; Z.div_mod_to_equations; lia).
  clearbody h m s.
  destruct (padStart_two_digits h ltac:(lia)) as (a1 & a2 & Ha & Ha1 & Ha2 & _).
  destruct (padStart_two_digits m ltac:(lia)) as (b1 & b2 & Hb & Hb1 & Hb2 & _).
  destruct (padStart_two_digits s ltac:(lia)) as (c1 & c2 & Hc & Hc1 & Hc2 & _).
  unfold clock_reducer. rewrite Ha, Hb, Hc. change (Z.of_nat 3) with 3%Z.
  split.
  - intros Hmpl.
    rewrite (proj2 (Z.leb_gt (3 - minPortionLength) 0)) by lia.
    rewrite (proj2 (Z.leb_gt (3 - minPortionLength) 1)) by lia.
    rewrite (proj2 (Z.leb_gt (3 - minPortionLength) 2)) by lia.
    destruct (Z.eqb_spec h 0) as [Eh | Eh];
      destruct (Z.eqb_spec m 0) as [Em | Em];
      destruct (Z.eqb_spec s 0) as [Es | Es];
      cbn [is_empty_string andb negb app length];
      repeat split; intros; try reflexivity; exfalso; lia.
  - intros Hmpl.
    rewrite (proj2 (Z.leb_le (3 - minPortionLength) 0)) by lia.
    rewrite (proj2 (Z.leb_le (3 - minPortionLength) 1)) by lia.
    rewrite (proj2 (Z.leb_le (3 - minPortionLength) 2)) by lia.
    rewrite !andb_false_r. cbn [is_empty_string negb app].
    exists a1, a2, b1, b2, c1, c2. split; [reflexivity |].
    by repeat constructor.
Qed.

Lemma getClockString_shape_witness :
  getClockString 500 0 = js "0".
Proof.
  refine (proj1 (proj1 (getClockString_shape 500 0 _) _) _); lia.
Defined.

Lemma getClockString_round_trip_witness :
  getSecondsFromClockString (getClockString 3723000 0) = inr 3723%Z.
Proof.
  refine (eq_trans (getClockString_round_trip 3723000 0 _) _); [lia | reflexivity].
Defined.


Lemma isUuid_shape_witness :
  length (js "123e4567-e89b-12d3-a456-426614174000") = 36.
Proof.
  apply (proj1 (proj2 (isUuid_shape (js "123e4567-e89b-12d3-a456-426614174000")))).
  vm_compute. reflexivity.
Defined.

(** ** Delays *)

Lemma digit_not_space c : is_digit c = true -> is_space c = false.
Proof.
  unfold is_digit. intros H. apply andb_true_iff in H as [H1 H2].
  apply N.leb_le in H1, H2.
  assert (Hc : (c = 48 \/ c = 49 \/ c = 50 \/ c = 51 \/ c = 52 \/ c = 53 \/ c = 54
                \/ c = 55 \/ c = 56 \/ c = 57)%N) by lia.
  repeat destruct Hc as [-> | Hc]; try subst c; reflexivity.
Qed.

Lemma drop_spaces_app_spaces ws s :
  Forall (fun c => is_space c = true) ws -> drop_spaces (ws ++ s) = drop_spaces s.
Proof. induction 1 as [| c ws Hc _ IH]; simpl; [done |]. by rewrite Hc. Qed.

Lemma drop_spaces_keeps c s : is_space c = false -> drop_spaces (c :: s) = c :: s.
Proof. intros H. simpl. by rewrite H. Qed.

(** White space around a string that neither starts nor ends with white
    space is what [trim] removes. *)
Lemma trim_spaces ws1 ws2 c s c' :
  Forall (fun c => is_space c = true) ws1 ->
  Forall (fun c => is_space c = true) ws2 ->
  is_space c = false -> is_space c' = false ->
  (trim (ws1 ++ [c] ++ ws2) = [c]) /\
  (trim (ws1 ++ (c :: s ++ [c']) ++ ws2) = c :: s ++ [c']).
Proof.
  intros H1 H2 Hc Hc'. unfold trim. split.
  - rewrite drop_spaces_app_spaces by done. cbn [app].
    rewrite drop_spaces_keeps by done.
    rewrite reverse_cons, drop_spaces_app_spaces by (by apply Forall_reverse).
    by rewrite drop_spaces_keeps.
  - rewrite drop_spaces_app_spaces by done. cbn [app].
    rewrite drop_spaces_keeps by done.
    replace (c :: (s ++ [c']) ++ ws2) with ((c :: s) ++ [c'] ++ ws2)
      by (simpl; by rewrite <- app_assoc).
    rewrite reverse_app, reverse_app, reverse_singleton, <- app_assoc.
    rewrite drop_spaces_app_spaces by (by apply Forall_reverse).
    cbn [app]. rewrite drop_spaces_keeps by done.
    by rewrite reverse_cons, reverse_involutive.
Qed.

Lemma trim_digit_string ws1 ws2 ds :
  Forall (fun c => is_space c = true) ws1 ->
  Forall (fun c => is_space c = true) ws2 ->
  digit_string ds -> trim (ws1 ++ ds ++ ws2) = ds.
Proof.
  intros H1 H2 [Hne Hds].
  destruct ds as [| c ds]; [done |].
  destruct ds as [| c1 ds _] using rev_ind.
  - apply Forall_cons in Hds as [Hc _].
    by apply (trim_spaces ws1 ws2 c [] c); try apply digit_not_space.
  - apply Forall_cons in Hds as [Hc Hds]. apply Forall_app in Hds as [_ Hc1].
    apply Forall_cons in Hc1 as [Hc1 _].
    by apply (trim_spaces ws1 ws2 c ds c1); try apply digit_not_space.
Qed.

Lemma digit_string_test s : regex_test pureDigits s = true <-> digit_string s.
Proof. unfold pureDigits. by rewrite regex_test_spec, Matches_plus_class. Qed.

Lemma first_digits_start ds c rest :
  digit_string ds -> is_digit c = false -> first_digits (ds ++ c :: rest) = Some ds.
Proof.
  intros [Hne Hds] Hc. destruct ds as [| d ds]; [done |].
  pose proof Hds as Hd. apply Forall_cons in Hd as [Hd _].
  cbn [first_digits app]. rewrite Hd.
  change (d :: ds ++ c :: rest) with ((d :: ds) ++ c :: rest).
  by rewrite span_digits_app.
Qed.



Lemma parseDelay_rejects (arg : list N) :
  ~ digit_string (trim arg) ->
  first_digits (trim arg) = None \/
  (exists ds, first_digits (trim arg) = Some ds /\ Number_digits ds = 0%Z) ->
  parseDelay arg = inl (js "Could not parse delay: " ++ trim arg).
Proof.
  intros Hnot. unfold parseDelay.
  destruct (regex_test pureDigits (trim arg)) eqn:Hp;
    [by apply digit_string_test in Hp |].
  intros [-> | (ds & -> & Hz)]; [reflexivity |].
  cbn [fmap option_fmap option_map]. rewrite Hz. cbn [Z.eqb orb].
  by repeat destruct (regex_test _ _).
Qed.



Lemma Number_digits_zeros zs :
  Forall (fun c => c = 48%N) zs -> Number_digits zs = 0%Z.
Proof.
  unfold Number_digits. induction zs as [| z zs IH] using rev_ind; [done |].
  intros H. apply Forall_app in H as [H Hz]. apply Forall_cons in Hz as [-> _].
  rewrite foldl_app. simpl. rewrite IH by done. reflexivity.
Qed.

(** X13: an amount of zero followed by anything that starts with a
    non-digit (a unit, for one) is rejected, while ["0"] alone is zero
    milliseconds. *)
Theorem parseDelay_zero_with_unit (zs tail : list N) (c' : N) :
  zs <> [] -> Forall (fun c => c = 48%N) zs ->
  head tail <> None -> (forall c, head tail = Some c -> is_digit c = false) ->
  last tail = Some c' -> is_space c' = false ->
  parseDelay (zs ++ tail) = inl (js "Could not parse delay: " ++ zs ++ tail) /\
  parseDelay zs = inr 0%Z.
Proof.
  intros Hne Hzs Hhead Hc Hlast Hc'.
  assert (Hds : digit_string zs).
  { split; [done |]. eapply Forall_impl; [exact Hzs |]. by intros ? ->. }
  split.
  - destruct tail as [| c tail]; [done |]. specialize (Hc c eq_refl).
    assert (Htrim : trim (zs ++ c :: tail) = zs ++ c :: tail).
    { apply last_Some in Hlast as [u Hu]. rewrite Hu.
      destruct zs as [| z zs']; [done |].
      apply Forall_cons in Hzs as [-> _].
      pose proof (proj2 (trim_spaces [] [] 48%N (zs' ++ u) c'
                           ltac:(constructor) ltac:(constructor) eq_refl Hc')) as Ht.
      rewrite app_nil_r in Ht. cbn [app] in Ht.
      rewrite <- app_assoc in Ht. exact Ht. }
    rewrite <- Htrim at 2. apply parseDelay_rejects.
    + rewrite Htrim. intros [_ H]. by apply not_all_digits_with in H.
    + right. exists zs. rewrite Htrim. split; [by apply first_digits_start |].
      by apply Number_digits_zeros.
  - unfold parseDelay.
    pose proof (trim_digit_string [] [] zs (Forall_nil_2 _) (Forall_nil_2 _) Hds) as Ht.
    rewrite app_nil_r in Ht. cbn [app] in Ht. rewrite Ht.
    rewrite (proj2 (digit_string_test zs) Hds). by rewrite Number_digits_zeros.
Qed.

Lemma parseDelay_zero_with_unit_witness :
  parseDelay (js "0s") = inl (js "Could not parse delay: 0s").
Proof.
  refine (proj1 (parseDelay_zero_with_unit (js "0") (js "s") 115%N _ _ _ _ _ _));
    try reflexivity; try discriminate.
  - repeat constructor.
  - intros c [= <-]. reflexivity.
Defined.








(** ** The skip command *)

(** X15: the skip command sends exactly one reply, whatever the metadata
    lookup does: when the lookup for the new track fails the reply is
    ["Skipped."] and the failure goes no further; a Twitch track without
    details is announced as ["TODO"]; a track with details is announced
    with its title, without any call to a service; the player buttons are
    attached whenever there is a new track. *)
Theorem skip_runCommand_replies env (σ : State) :
  (exists reply σ',
     skip_runCommand env (Some (Some σ)) = ([reply], true, Some σ') /\
     (reply = "Skipped." \/
      exists r, fst (getVideoDetails env σ) = Resolved r /\
                reply = "Skipped. Now playing: " +:+ title (heap σ' !!! r))) /\
  (forall e,
     details (this σ) = None -> is_youtube (variant (this σ)) = true ->
     youtube_details_answer env (length (calls σ)) (link (this σ)) = inl e ->
     fst (fst (skip_runCommand env (Some (Some σ)))) = ["Skipped."]) /\
  (details (this σ) = None -> is_youtube (variant (this σ)) = false ->
     fst (fst (skip_runCommand env (Some (Some σ)))) = ["Skipped. Now playing: TODO"]) /\
  (forall d,
     details (this σ) = Some d ->
     fst (fst (skip_runCommand env (Some (Some σ))))
       = ["Skipped. Now playing: " +:+ title (heap σ !!! d)] /\
     (forall σ', snd (skip_runCommand env (Some (Some σ))) = Some σ' ->
                 calls σ' = calls σ)).
Proof.
  split; [| split; [| split]].
  - unfold skip_runCommand.
    destruct (getVideoDetails env σ) as [[r | e] σ'] eqn:E.
    + exists ("Skipped. Now playing: " +:+ title (heap σ' !!! r)), σ'.
      split; [done |]. right. by exists r.
    + exists "Skipped.", σ'. split; [done | by left].
  - intros e Hd Hv Hans. unfold skip_runCommand.
    by rewrite (getVideoDetails_fetch_failed env σ e Hd Hv Hans).
  - intros Hd Hv. unfold skip_runCommand.
    rewrite (getVideoDetails_placeholder env σ Hd Hv). cbn [fst heap].
    by rewrite lookup_total_insert_eq.
  - intros d Hd. unfold skip_runCommand.
    rewrite (getVideoDetails_populated env σ d Hd). cbn [fst snd heap].
    rewrite lookup_total_insert_eq. split; [done |]. by intros σ' [= <-].
Qed.

Lemma skip_runCommand_replies_witness :
  fst (fst (skip_runCommand services_down (Some (Some (no_details_state youtube_track)))))
  = ["Skipped."].
Proof.
  refine (proj1 (proj2 (skip_runCommand_replies services_down
                          (no_details_state youtube_track)))
            (new_Error "quota exceeded") _ _ _); reflexivity.
Defined.

Lemma getIntersection_members_in_order_witness :
  3 ∈ getIntersection [1; 2; 3] [3; 4] Nat.eqb.
Proof.
  apply (proj2 (proj1 (getIntersection_members_in_order [1; 2; 3] [3; 4] Nat.eqb) 3)).
  split; [set_solver |]. exists 3. split; [set_solver | reflexivity].
Defined.
